(** * The derived-attribute engine of the manpower planning dashboard

    A shallow embedding of [dashboard.py]: the ceiling helper [roundup], the
    ordered formula registry [FORMULAS], the evaluation namespace handed to
    Python's [eval], and the engine [compute_derived] with its locked keys and
    its catch-all [except Exception] clause.

    Python objects are modelled as follows.
    - A record ([Dict[str, Any]]) is a [gmap string value]; the engine mutates
      the dictionary in place and returns it, which is rendered by passing the
      record through every step.
    - A value is [None], an [int] (unbounded, [Z]), a [float] (IEEE 754
      binary64, the kernel's primitive floats, with a single NaN) or a [str]
      (over code points below 256).
    - An evaluation either returns, raises an exception, or leaves the
      modelled fragment of Python ([Unmodelled]): the only such place is
      [10 ** digits] for a negative or non-integer [digits], which CPython
      delegates to the C library's [pow]. *)

From Stdlib Require Import ZArith Floats Lia Bool String Ascii.
From stdpp Require Import gmap strings list fin_maps.

#[local] Set Warnings "-inexact-float,-register-all".
#[local] Open Scope Z_scope.

(** ** Outcomes of an evaluation *)

(** The exception classes the arithmetic of the formulas can raise; each of
    them derives from [Exception]. *)
Inductive exn :=
| KeyError
| NameError
| TypeError
| ValueError
| ZeroDivisionError
| OverflowError.

Inductive outcome (A : Type) :=
| Ok (a : A)
| Raise (e : exn)
| Unmodelled.

Arguments Ok {A} a.
Arguments Raise {A} e.
Arguments Unmodelled {A}.

#[global] Instance outcome_ret : MRet outcome := fun A a => Ok a.

#[global] Instance outcome_bind : MBind outcome := fun A B k o =>
  match o with
  | Ok a => k a
  | Raise e => Raise e
  | Unmodelled => Unmodelled
  end.

#[global] Instance outcome_fmap : FMap outcome := fun A B g o =>
  match o with
  | Ok a => Ok (g a)
  | Raise e => Raise e
  | Unmodelled => Unmodelled
  end.

(** [try: body except Exception: handler]. Every class of [exn] is an
    [Exception], so the handler takes all of them. *)
Definition try_except {A : Type} (body : outcome A) (handler : exn -> outcome A)
  : outcome A :=
  match body with
  | Ok a => Ok a
  | Raise e => handler e
  | Unmodelled => Unmodelled
  end.

(** ** Values *)

Inductive value :=
| VNone
| VInt (n : Z)
| VFloat (f : float)
| VStr (s : string).

(** [float('nan')] *)
Definition NaN : value := VFloat nan.

Definition is_nan_value (v : value) : bool :=
  match v with
  | VFloat f => PrimFloat.is_nan f
  | _ => false
  end.

(** ** Numbers *)

(** Conversion of an [int] operand in mixed arithmetic: round to nearest,
    ties to even; [OverflowError] when the result would not be finite. *)
Definition float_of_int (n : Z) : outcome float :=
  match binary_normalize prec emax n 0 false with
  | S754_infinity _ => Raise OverflowError
  | sf => Ok (SF2Prim sf)
  end.

(** [int / int]: the correctly rounded quotient. *)
Definition int_truediv (a b : Z) : outcome float :=
  if b =? 0 then Raise ZeroDivisionError
  else if a =? 0 then Ok (if b <? 0 then PrimFloat.neg_zero else PrimFloat.zero)
  else
    let '(mz, ez, lz) := SFdiv_core_binary prec emax (Z.abs a) 0 (Z.abs b) 0 in
    match binary_round_aux prec emax (xorb (a <? 0) (b <? 0)) mz ez lz with
    | S754_infinity _ => Raise OverflowError
    | sf => Ok (SF2Prim sf)
    end.

(** [float / float] *)
Definition float_truediv (a b : float) : outcome float :=
  if PrimFloat.is_zero b then Raise ZeroDivisionError else Ok (PrimFloat.div a b).

(** The exact order between an [int] and a [float]; [None] on NaN. *)
Definition compare_int_float (n : Z) (f : float) : option comparison :=
  match Prim2SF f with
  | S754_nan => None
  | S754_infinity s => Some (if s then Gt else Lt)
  | S754_zero _ => Some (n ?= 0)
  | S754_finite s m e =>
      let v := cond_Zopp s (Zpos m) in
      Some (if 0 <=? e then n ?= v * 2 ^ e else n * 2 ^ (- e) ?= v)
  end.

Definition str_repeat (s : string) (n : Z) : string :=
  Nat.iter (Z.to_nat n) (String.append s) EmptyString.

Inductive binop := Add | Sub | Mul | Div.

Definition float_binop (op : binop) (a b : float) : outcome float :=
  match op with
  | Add => Ok (PrimFloat.add a b)
  | Sub => Ok (PrimFloat.sub a b)
  | Mul => Ok (PrimFloat.mul a b)
  | Div => float_truediv a b
  end.

Definition int_binop (op : binop) (a b : Z) : outcome value :=
  match op with
  | Add => Ok (VInt (a + b))
  | Sub => Ok (VInt (a - b))
  | Mul => Ok (VInt (a * b))
  | Div => VFloat <$> int_truediv a b
  end.

(** [a op b] for the four operators of the formulas. *)
Definition py_binop (op : binop) (a b : value) : outcome value :=
  match a, b with
  | VInt x, VInt y => int_binop op x y
  | VInt x, VFloat y => fx ← float_of_int x; VFloat <$> float_binop op fx y
  | VFloat x, VInt y => fy ← float_of_int y; VFloat <$> float_binop op x fy
  | VFloat x, VFloat y => VFloat <$> float_binop op x y
  | VStr x, VStr y =>
      match op with Add => Ok (VStr (x +:+ y)) | _ => Raise TypeError end
  | VStr x, VInt y | VInt y, VStr x =>
      match op with Mul => Ok (VStr (str_repeat x y)) | _ => Raise TypeError end
  | _, _ => Raise TypeError
  end.

(** [a > b] *)
Definition py_gt (a b : value) : outcome bool :=
  match a, b with
  | VInt x, VInt y => Ok (y <? x)
  | VFloat x, VFloat y => Ok (PrimFloat.ltb y x)
  | VInt x, VFloat y =>
      Ok (match compare_int_float x y with Some Gt => true | _ => false end)
  | VFloat x, VInt y =>
      Ok (match compare_int_float y x with Some Lt => true | _ => false end)
  | VStr x, VStr y => Ok (String.ltb y x)
  | _, _ => Raise TypeError
  end.

(** [a < b] *)
Definition py_lt (a b : value) : outcome bool := py_gt b a.

(** [math.ceil] *)
Definition float_ceil (f : float) : outcome Z :=
  match Prim2SF f with
  | S754_nan => Raise ValueError
  | S754_infinity _ => Raise OverflowError
  | S754_zero _ => Ok 0
  | S754_finite s m e =>
      let v := cond_Zopp s (Zpos m) in
      Ok (if 0 <=? e then v * 2 ^ e else - ((- v) / 2 ^ (- e)))
  end.

Definition math_ceil (v : value) : outcome value :=
  match v with
  | VInt n => Ok (VInt n)
  | VFloat f => VInt <$> float_ceil f
  | _ => Raise TypeError
  end.

(** [10 ** digits] *)
Definition pow10 (digits : value) : outcome value :=
  match digits with
  | VInt d => if 0 <=? d then Ok (VInt (10 ^ d)) else Unmodelled
  | VFloat _ => Unmodelled
  | _ => Raise TypeError
  end.

(** [[
def roundup(x: float, digits: int = 0) -> float:
    factor = 10 ** digits
    return math.ceil(x * factor) / factor
]] *)
Definition roundup (x : value) (digits : value) : outcome value :=
  factor ← pow10 digits;
  p ← py_binop Mul x factor;
  c ← math_ceil p;
  py_binop Div c factor.


(** ** The builtins the namespace gives access to *)

Fixpoint py_max_from (best : value) (rest : list value) : outcome value :=
  match rest with
  | [] => Ok best
  | item :: rest' =>
      g ← py_gt item best;
      py_max_from (if g : bool then item else best) rest'
  end.

Fixpoint py_min_from (best : value) (rest : list value) : outcome value :=
  match rest with
  | [] => Ok best
  | item :: rest' =>
      l ← py_lt item best;
      py_min_from (if l : bool then item else best) rest'
  end.

(** ** [sum]

    [sum(items, start)] as CPython computes it from 3.12 on, in three loops.
    While the total and the items are ints that fit a C [long] (64 bits),
    they are added as such. Once the total is a float, float items are added
    with Neumaier's compensation, which is added to the total at the end,
    and int items that fit a [long] are added without it. Any other item
    leaves the loop it is met in: it is added with [+], and so is every item
    after it. (Before 3.12 a run of floats was added without compensation;
    the two agree whenever no partial sum is rounded.) *)

(** The last loop: [result = result + item], item by item. *)
Fixpoint py_sum_from (acc : value) (items : list value) : outcome value :=
  match items with
  | [] => Ok acc
  | item :: items' => acc' ← py_binop Add acc item; py_sum_from acc' items'
  end.

Definition fits_long (n : Z) : bool := (- 2 ^ 63 <=? n) && (n <? 2 ^ 63).

(** [[
                if (c && Py_IS_FINITE(c)) {
                    f_result += c;
                }
]] *)
Definition compensated (f c : float) : float :=
  if negb (PrimFloat.is_zero c) && PrimFloat.is_finite c then PrimFloat.add f c else f.

(** [[
                double t = f_result + x;
                if (fabs(f_result) >= fabs(x)) {
                    c += (f_result - t) + x;
                } else {
                    c += (x - t) + f_result;
                }
                f_result = t;
]] *)
Definition neumaier (f c x : float) : float * float :=
  let t := PrimFloat.add f x in
  (t,
   PrimFloat.add c
     (if PrimFloat.leb (PrimFloat.abs x) (PrimFloat.abs f)
      then PrimFloat.add (PrimFloat.sub f t) x
      else PrimFloat.add (PrimFloat.sub x t) f)).

(** The loop over a float total [f] with compensation [c]. *)
Fixpoint py_sum_floats (f c : float) (items : list value) : outcome value :=
  match items with
  | [] => Ok (VFloat (compensated f c))
  | item :: items' =>
      let generic :=
        acc ← py_binop Add (VFloat (compensated f c)) item; py_sum_from acc items' in
      match item with
      | VFloat x => py_sum_floats (neumaier f c x).1 (neumaier f c x).2 items'
      | VInt n =>
          if fits_long n
          then v ← float_of_int n; py_sum_floats (PrimFloat.add f v) c items'
          else generic
      | _ => generic
      end
  end.

(** The loop over an int total [i] that fits a [long]. *)
Fixpoint py_sum_ints (i : Z) (items : list value) : outcome value :=
  match items with
  | [] => Ok (VInt i)
  | item :: items' =>
      let generic :=
        acc ← py_binop Add (VInt i) item;
        match acc with
        | VFloat f => py_sum_floats f PrimFloat.zero items'
        | _ => py_sum_from acc items'
        end in
      match item with
      | VInt b =>
          if fits_long b && fits_long (i + b) then py_sum_ints (i + b) items'
          else generic
      | _ => generic
      end
  end.

(** [sum(items, start)] *)
Definition py_sum_start (start : value) (items : list value) : outcome value :=
  match start with
  | VStr _ => Raise TypeError
  | VInt i => if fits_long i then py_sum_ints i items else py_sum_from start items
  | VFloat f => py_sum_floats f PrimFloat.zero items
  | VNone => py_sum_from start items
  end.

(** Iteration over a value: only a [str] is iterable, and yields its
    characters. *)
Definition py_iter (v : value) : outcome (list value) :=
  match v with
  | VStr s => Ok ((fun c => VStr (String c EmptyString)) <$> list_ascii_of_string s)
  | _ => Raise TypeError
  end.

(** [max(iterable)] *)
Definition py_max (items : list value) : outcome value :=
  match items with
  | [] => Raise ValueError
  | first :: rest => py_max_from first rest
  end.

(** [min(iterable)] *)
Definition py_min (items : list value) : outcome value :=
  match items with
  | [] => Raise ValueError
  | first :: rest => py_min_from first rest
  end.

(** [sum(iterable)], with the default [start=0] *)
Definition py_sum (items : list value) : outcome value := py_sum_start (VInt 0) items.

(** [abs(x)] *)
Definition py_abs (v : value) : outcome value :=
  match v with
  | VInt n => Ok (VInt (Z.abs n))
  | VFloat f => Ok (VFloat (PrimFloat.abs f))
  | _ => Raise TypeError
  end.

(** ** The namespace of a formula *)

(** The function objects a name can be bound to. *)
Inductive pyfunc := F_roundup | F_max | F_sum | F_min | F_abs.

(** What a name resolves to: the record, or a function. *)
Inductive object :=
| O_record
| O_func (f : pyfunc).

(** [safe_globals = {'roundup': roundup, 'max': max, 'sum': sum}] *)
Definition safe_globals : list (string * pyfunc) :=
  [("roundup", F_roundup); ("max", F_max); ("sum", F_sum)]%string.

(** The names of the [builtins] module whose functions are modelled here. The
    module binds many more ([round], [len], [float], ...): a name that is
    bound neither here nor in the dictionaries given to [eval] is either one
    of those or unbound ([NameError]), and its evaluation is left out of the
    model ([Unmodelled]). *)
Definition builtins : list (string * pyfunc) :=
  [("abs", F_abs); ("max", F_max); ("min", F_min); ("sum", F_sum)]%string.

Fixpoint assoc {A : Type} (name : string) (l : list (string * A)) : option A :=
  match l with
  | [] => None
  | (n, a) :: l' => if String.eqb name n then Some a else assoc name l'
  end.

(** Name resolution inside [eval(expr, globals, {'row': row})]: the local
    dictionary first, then the globals, then the builtins. A globals
    dictionary without a ['__builtins__'] entry is given a reference to
    the [builtins] module by [eval] itself; [has_builtins_key] tells whether
    the dictionary brings its own (taken as empty then). *)
Definition resolve_in (globals : list (string * pyfunc)) (has_builtins_key : bool)
    (name : string) : option object :=
  if String.eqb name "row" then Some O_record
  else
    match assoc name globals with
    | Some f => Some (O_func f)
    | None =>
        if has_builtins_key then None
        else O_func <$> assoc name builtins
    end.

(** The namespace [compute_derived] evaluates in: [safe_globals], which has
    no ['__builtins__'] entry. *)
Definition resolve : string -> option object := resolve_in safe_globals false.

(** ** Formulas *)

(** The expressions of the registry: number literals, [name['key']], the four
    binary operators, calls [fn(a, b, ...)] and calls on a list display
    [fn([a, b, ...])]. *)
Inductive expr :=
| Int (n : Z)
| Flt (f : float)
| Subscript (name : string) (key : string)
| BinOp (op : binop) (a b : expr)
| Call (fn : string) (args : list expr)
| CallList (fn : string) (items : list expr).

(** [fn(a, b, ...)] on evaluated arguments *)
Definition call (o : object) (args : list value) : outcome value :=
  match o with
  | O_record => Raise TypeError
  | O_func F_roundup =>
      match args with
      | [x] => roundup x (VInt 0)
      | [x; digits] => roundup x digits
      | _ => Raise TypeError
      end
  | O_func F_max =>
      match args with
      | [] => Raise TypeError
      | [x] => items ← py_iter x; py_max items
      | _ => py_max args
      end
  | O_func F_min =>
      match args with
      | [] => Raise TypeError
      | [x] => items ← py_iter x; py_min items
      | _ => py_min args
      end
  | O_func F_sum =>
      match args with
      | [x] => items ← py_iter x; py_sum items
      | [x; start] => items ← py_iter x; py_sum_start start items
      | _ => Raise TypeError
      end
  | O_func F_abs =>
      match args with
      | [x] => py_abs x
      | _ => Raise TypeError
      end
  end.

(** [fn([a, b, ...])] on evaluated items *)
Definition call_list (o : object) (items : list value) : outcome value :=
  match o with
  | O_func F_max => py_max items
  | O_func F_min => py_min items
  | O_func F_sum => py_sum items
  | _ => Raise TypeError
  end.

Section Eval.
Variable row : gmap string value.

Fixpoint eval (e : expr) : outcome value :=
  let eval_all :=
    fix eval_all (es : list expr) : outcome (list value) :=
      match es with
      | [] => Ok []
      | e' :: es' => v ← eval e'; vs ← eval_all es'; Ok (v :: vs)
      end in
  match e with
  | Int n => Ok (VInt n)
  | Flt f => Ok (VFloat f)
  | Subscript name key =>
      match resolve name with
      | None => Unmodelled
      | Some O_record =>
          match row !! key with
          | Some v => Ok v
          | None => Raise KeyError
          end
      | Some (O_func _) => Raise TypeError
      end
  | BinOp op a b => x ← eval a; y ← eval b; py_binop op x y
  | Call fn args =>
      match resolve fn with
      | None => Unmodelled
      | Some o => vs ← eval_all args; call o vs
      end
  | CallList fn items =>
      match resolve fn with
      | None => Unmodelled
      | Some o => vs ← eval_all items; call_list o vs
      end
  end.

Fixpoint eval_all (es : list expr) : outcome (list value) :=
  match es with
  | [] => Ok []
  | e' :: es' => v ← eval e'; vs ← eval_all es'; Ok (v :: vs)
  end.
End Eval.

(** ** The formula registry *)

Declare Scope py_scope.
Delimit Scope py_scope with py.
Bind Scope py_scope with expr.

Notation "a + b" := (BinOp Add a b) : py_scope.
Notation "a - b" := (BinOp Sub a b) : py_scope.
Notation "a * b" := (BinOp Mul a b) : py_scope.
Notation "a / b" := (BinOp Div a b) : py_scope.
Notation "'row[' key ]" := (Subscript "row" key) (at level 0, key at level 200).

Section Registry.
#[local] Open Scope string_scope.
#[local] Open Scope py_scope.

(** The ten manpower-in-units fields that both staffing totals sum. *)
Definition manpower_pool : list expr :=
  [row["manpower_in_units_cd_unit"];
   row["manpower_in_units_with_sorter_sorter_unit"];
   row["manpower_in_units_with_sorter_non_cony"];
   row["manpower_in_units_with_no_sorter_manual_sorting_units"];
   row["manpower_in_units_skidder_unit"];
   row["manpower_in_units_xray_unit"];
   row["manpower_in_units_air_unit"];
   row["manpower_in_units_surface_unit"];
   row["manpower_in_units_doc_unit"];
   row["manpower_in_units_exception_han_unit"]].

(** [FORMULAS]: the derived fields and their formulas, in the order of the
    dictionary literal, which is the order [FORMULAS.items()] yields. *)
Definition FORMULAS : list (string * expr) :=
  [("in_avg_wt_cn", row["in_ndx_vol_wt"] / row["in_ndx_out_vol"]);
   ("out_avg_wt_cn", row["out_ndx_vol_wt"] / row["out_ndx_out_vol"]);
   ("packet", Call "max" [row["in_docs"]; row["out_docs"]] / Int 15);
   ("bag_doc", (Call "max" [row["in_docs"]; row["out_docs"]] / Int 15) / Int 15);
   ("vol_bag_non_doc",
     Call "max" [row["in_ndx_out_vol"]; row["out_ndx_out_vol"]] / Int 13);
   ("wt_bag_non_doc",
     Call "max" [row["in_ndx_vol_wt"]; row["out_ndx_vol_wt"]] / Int 25);
   ("out_per_day_docs", Call "roundup" [row["out_docs"] / Int 25; Int 0]);
   ("out_per_day_non_docs", Call "roundup" [row["out_non_docs"] / Int 25; Int 0]);
   ("out_per_day_air", Call "roundup" [row["out_air"] / Int 25; Int 0]);
   ("out_per_day_surface", Call "roundup" [row["out_surface"] / Int 25; Int 0]);
   ("out_per_day_ndx_out_vol",
     Call "roundup" [row["out_ndx_out_vol"] / Int 25; Int 0]);
   ("out_per_day_ndx_vol_wt",
     Call "roundup" [row["out_ndx_vol_wt"] / Int 25; Int 0]);
   ("in_per_day_docs", Call "roundup" [row["in_docs"] / Int 25; Int 0]);
   ("in_per_day_non_docs", Call "roundup" [row["in_non_docs"] / Int 25; Int 0]);
   ("in_per_day_air", Call "roundup" [row["in_air"] / Int 25; Int 0]);
   ("in_per_day_surface", Call "roundup" [row["in_surface"] / Int 25; Int 0]);
   ("in_per_day_ndx_out_vol",
     Call "roundup" [row["in_ndx_out_vol"] / Int 25; Int 0]);
   ("in_per_day_ndx_vol_wt",
     Call "roundup" [row["in_ndx_vol_wt"] / Int 25; Int 0]);
   ("per_day_ndx",
     Call "max" [row["out_per_day_non_docs"]; row["in_per_day_non_docs"]]);
   ("per_day_dox", Call "max" [row["out_per_day_docs"]; row["in_per_day_docs"]]);
   ("per_day_packet", row["packet"] / Int 25);
   ("per_day_bag_doc", row["bag_doc"] / Int 25);
   ("per_day_bag_non_doc",
     Call "max" [row["vol_bag_non_doc"]; row["wt_bag_non_doc"]] / Int 25);
   ("per_day_air", row["out_per_day_air"] / Int 12);
   ("cd_unit",
     (row["per_day_bag_doc"] + row["per_day_bag_non_doc"]) * Int 35 / Int 3600);
   ("with_sorter_sorter_unit",
     Flt 20.16 * row["per_day_ndx"] * Flt 0.55 / Int 3600);
   ("with_sorter_non_cony",
     (row["with_sorter_sorter_unit"] * Flt 0.3 * Flt 1.5) / Flt 0.55);
   ("manual_sorting_units", row["per_day_ndx"] * Flt 31.1 / Int 3600);
   ("xray_unit", row["per_day_air"] * Int 15 / Int 3600);
   ("air_unit", row["per_day_air"] * Int 38 / Int 3600);
   ("surface_unit",
     ((row["per_day_bag_doc"] + row["per_day_bag_non_doc"]) - row["per_day_air"])
     * Int 38 / Int 3600);
   ("doc_unit", (Flt 0.6 * row["per_day_dox"] * Flt 10.02222222) / Int 3600);
   ("exception_han_unit", Flt 0.05 * Int 30 * row["per_day_ndx"] / Int 3600);
   ("skidder_unit",
     Flt 0.1 *
     CallList "sum"
       [row["cd_unit"]; row["with_sorter_sorter_unit"]; row["with_sorter_non_cony"];
        row["manual_sorting_units"]; row["xray_unit"]; row["air_unit"];
        row["surface_unit"]; row["doc_unit"]; row["exception_han_unit"]]);
   ("total",
     Flt 1.2 *
     (CallList "sum"
        [row["cd_unit"]; row["with_sorter_sorter_unit"]; row["with_sorter_non_cony"];
         row["manual_sorting_units"]; row["skidder_unit"]; row["xray_unit"];
         row["air_unit"]; row["surface_unit"]; row["doc_unit"];
         row["exception_han_unit"]]
      - row["manual_sorting_units"]));
   ("manpower_in_units_cd_unit",
     Call "roundup" [row["cd_unit"] * Flt 1.25 / row["at"]; Int 0]);
   ("manpower_in_units_with_sorter_sorter_unit",
     Call "roundup" [row["with_sorter_sorter_unit"] * Flt 1.25 / row["at"]; Int 0]);
   ("manpower_in_units_with_sorter_non_cony",
     Call "roundup" [row["with_sorter_non_cony"] * Flt 1.25 / row["at"]; Int 0]);
   ("manpower_in_units_with_no_sorter_manual_sorting_units",
     Call "roundup" [row["manual_sorting_units"] * Flt 1.25 / row["at"]; Int 0]);
   ("manpower_in_units_skidder_unit",
     Call "roundup" [row["skidder_unit"] * Flt 1.25 / row["at"]; Int 0]);
   ("manpower_in_units_xray_unit",
     Call "roundup" [row["xray_unit"] * Flt 1.25 / row["at"]; Int 0]);
   ("manpower_in_units_air_unit",
     Call "roundup" [row["air_unit"] * Flt 1.25 / row["at"]; Int 0]);
   ("manpower_in_units_surface_unit",
     Call "roundup" [row["surface_unit"] * Flt 1.25 / row["at"]; Int 0]);
   ("manpower_in_units_doc_unit",
     Call "roundup" [row["doc_unit"] * Flt 1.25 / row["at"]; Int 0]);
   ("manpower_in_units_exception_han_unit",
     Call "roundup" [row["exception_han_unit"] * Flt 1.25 / row["at"]; Int 0]);
   ("manpower_with_sorter",
     CallList "sum" manpower_pool
     - row["manpower_in_units_with_no_sorter_manual_sorting_units"]);
   ("manpower_without_sorter",
     CallList "sum" manpower_pool
     - row["manpower_in_units_with_sorter_sorter_unit"]
     - row["manpower_in_units_with_sorter_non_cony"])].

(** [BASE_INPUT_FIELDS]: the base inputs the user is allowed to change. *)
Definition BASE_INPUT_FIELDS : list string :=
  ["out_docs"; "out_non_docs"; "out_air"; "out_surface"; "out_ndx_out_vol";
   "out_ndx_vol_wt"; "in_docs"; "in_non_docs"; "in_air"; "in_surface";
   "in_ndx_out_vol"; "in_ndx_vol_wt"; "sorter"; "at"].
End Registry.

(** The keys of a registry, in order. *)
Definition registry_keys (formulas : list (string * expr)) : list string :=
  fst <$> formulas.

(** ** The engine *)

(** [locked = set(locked_keys or [])] *)
Definition locked_set (locked_keys : option (list string)) : gset string :=
  list_to_set (default [] locked_keys).

(** One unlocked entry:
[[
        try:
            row[key] = eval(expr, safe_globals, {'row': row})
        except Exception:
            row[key] = float('nan')
]] *)
Definition store_formula (key : string) (e : expr) (row : gmap string value)
  : outcome (gmap string value) :=
  try_except
    (v ← eval row e; Ok (<[key := v]> row))
    (fun _ => Ok (<[key := NaN]> row)).

(** The loop over [FORMULAS.items()], in declared order; a locked key is
    skipped ([continue]). *)
Fixpoint eval_formulas (formulas : list (string * expr)) (locked : gset string)
    (row : gmap string value) : outcome (gmap string value) :=
  match formulas with
  | [] => Ok row
  | (key, e) :: rest =>
      if decide (key ∈ locked) then eval_formulas rest locked row
      else row' ← store_formula key e row; eval_formulas rest locked row'
  end.

Definition compute_derived (row : gmap string value)
    (locked_keys : option (list string)) : outcome (gmap string value) :=
  eval_formulas FORMULAS (locked_set locked_keys) row.


(** ** Auxiliary definitions for the proofs *)

Definition modelled {A : Type} (o : outcome A) : Prop := o <> Unmodelled.

(** The names the model resolves. *)
Definition resolves (name : string) : bool :=
  match resolve name with
  | Some _ => true
  | None => false
  end.

(** The formulas whose evaluation stays inside the modelled fragment: every
    name they mention resolves in the model, and a second argument of
    [roundup] is a literal number of digits, not negative. *)
Fixpoint in_fragment (e : expr) : bool :=
  match e with
  | Int _ | Flt _ => true
  | Subscript name _ => resolves name
  | BinOp _ a b => in_fragment a && in_fragment b
  | Call fn args =>
      resolves fn &&
      (forallb in_fragment args &&
       match resolve fn, args with
       | Some (O_func F_roundup), [_; Int d] => 0 <=? d
       | Some (O_func F_roundup), [_; _] => false
       | _, _ => true
       end)
  | CallList fn items => resolves fn && forallb in_fragment items
  end.

(** What the [try]/[except] of one entry leaves under its key. *)
Definition stored (o : outcome value) : value :=
  match o with
  | Ok v => v
  | _ => NaN
  end.

Definition step (locked : gset string) (r : gmap string value)
    (entry : string * expr) : gmap string value :=
  if decide (entry.1 ∈ locked) then r
  else <[entry.1 := stored (eval r entry.2)]> r.

Definition run (formulas : list (string * expr)) (locked : gset string)
    (r : gmap string value) : gmap string value :=
  foldl (step locked) r formulas.

Definition registry_in_fragment (formulas : list (string * expr)) : bool :=
  forallb (fun entry => in_fragment entry.2) formulas.


(** The registry with the formula of [k] changed to [e']. *)
Definition replace_formula (k : string) (e' : expr)
    (formulas : list (string * expr)) : list (string * expr) :=
  (fun entry : string * expr =>
     if String.eqb entry.1 k then (entry.1, e') else entry) <$> formulas.

(** The keys of the record a formula reads. *)
Fixpoint reads (e : expr) : list string :=
  match e with
  | Int _ | Flt _ => []
  | Subscript _ key => [key]
  | BinOp _ a b => reads a ++ reads b
  | Call _ args => flat_map reads args
  | CallList _ items => flat_map reads items
  end.

(** No formula reads its own key or the key of a later entry: every field
    a formula refers to is a registry key declared strictly earlier, or is no
    registry key at all. *)
Fixpoint reads_only_earlier (formulas : list (string * expr)) : bool :=
  match formulas with
  | [] => true
  | (k, e) :: rest =>
      forallb (fun x => negb (bool_decide (x ∈ k :: registry_keys rest))) (reads e)
      && reads_only_earlier rest
  end.

(** The keys read by [manpower_pool]. *)
Definition manpower_pool_keys : list string :=
  ["manpower_in_units_cd_unit";
   "manpower_in_units_with_sorter_sorter_unit";
   "manpower_in_units_with_sorter_non_cony";
   "manpower_in_units_with_no_sorter_manual_sorting_units";
   "manpower_in_units_skidder_unit";
   "manpower_in_units_xray_unit";
   "manpower_in_units_air_unit";
   "manpower_in_units_surface_unit";
   "manpower_in_units_doc_unit";
   "manpower_in_units_exception_han_unit"]%string.

(** The float a record holds under a key. *)
Definition float_at (r : gmap string value) (k : string) : float :=
  match r !! k with
  | Some (VFloat f) => f
  | _ => nan
  end.

(** [sum] of one or more floats: the total starts as [0 + f1], and the
    others are added with compensation. *)
Fixpoint float_sum_from (f c : float) (fs : list float) : float :=
  match fs with
  | [] => compensated f c
  | x :: fs' => float_sum_from (neumaier f c x).1 (neumaier f c x).2 fs'
  end.

Definition float_sum (fs : list float) : float :=
  match fs with
  | [] => PrimFloat.zero
  | x :: fs' => float_sum_from (PrimFloat.add PrimFloat.zero x) PrimFloat.zero fs'
  end.

(** Formulas of the shape [roundup(a, 0)]. *)
Definition is_roundup_call (e : expr) : bool :=
  match e with
  | Call fn [_; Int 0] => String.eqb fn "roundup"
  | _ => false
  end.

(** The registry keys whose formula is a call [roundup(a, 0)]. *)
Definition rounded_keys (formulas : list (string * expr)) : list string :=
  fst <$> List.filter (fun entry => is_roundup_call entry.2) formulas.

(** The base inputs of the specification's Scenario A. *)
Definition scenario_A : gmap string value :=
  list_to_map
    [("out_docs", VInt 100); ("out_non_docs", VInt 200); ("in_docs", VInt 50);
     ("in_non_docs", VInt 150); ("out_air", VInt 40); ("out_surface", VInt 160);
     ("in_air", VInt 20); ("in_surface", VInt 130); ("out_ndx_out_vol", VInt 300);
     ("out_ndx_vol_wt", VInt 900); ("in_ndx_out_vol", VInt 250);
     ("in_ndx_vol_wt", VInt 750); ("sorter", VInt 1); ("at", VInt 20)]%string.

(** The keys a formula reads in a position where a NaN cannot be dropped:
    an operand of [+ - * /], the first argument of a call, the first item of
    a list given to [max] or [min], any item of a list given to [sum]. What
    is left out is a later argument of [max]: [max(x, nan)] is [x]. *)
Fixpoint nan_reads (e : expr) : list string :=
  match e with
  | Int _ | Flt _ => []
  | Subscript _ key => [key]
  | BinOp _ a b => nan_reads a ++ nan_reads b
  | Call _ args =>
      match args with
      | a :: _ => nan_reads a
      | [] => []
      end
  | CallList fn items =>
      match resolve fn with
      | Some (O_func F_sum) => flat_map nan_reads items
      | _ =>
          match items with
          | a :: _ => nan_reads a
          | [] => []
          end
      end
  end.

(** The registry keys reached from a set of absent fields and a set of
    NaN-valued fields: an entry is reached when its formula reads an absent
    field anywhere, or has a key of [nans] among [rd] of its formula; its
    own key then joins [nans]. With [rd := reads] this is plain transitive
    dependency; with [rd := nan_reads], dependency through NaN-strict
    positions. *)
Fixpoint downstream (rd : expr -> list string) (formulas : list (string * expr))
    (absent nans : list string) : list string :=
  match formulas with
  | [] => nans
  | (k, e) :: rest =>
      if existsb (fun x => bool_decide (x ∈ absent)) (reads e)
         || existsb (fun x => bool_decide (x ∈ nans)) (rd e)
      then downstream rd rest absent (k :: nans)
      else downstream rd rest absent nans
  end.

(** A field that is absent from the record, or holds NaN. *)
Definition poisoned (r : gmap string value) (k : string) : Prop :=
  r !! k = None \/ r !! k = Some NaN.

(** An evaluation that does not return. *)
Definition fails {A : Type} (o : outcome A) : Prop := forall a, o <> Ok a.

(** The base input fields whose removal reaches every dependent key through
    NaN-strict positions: no dependent key is reached through a later
    argument of [max] only. *)
Definition strictly_read_base_fields : list string :=
  ["out_docs"; "out_non_docs"; "out_air"; "out_surface"; "out_ndx_out_vol";
   "in_air"; "in_surface"; "in_ndx_out_vol"; "sorter"; "at"]%string.

(** The base input fields for which the same holds when the field is not
    removed but holds NaN: [out_docs] and [out_ndx_out_vol] are themselves
    read as a later argument of [max], and leave the list. *)
Definition nan_strict_base_fields : list string :=
  ["out_non_docs"; "out_air"; "out_surface"; "in_air"; "in_surface";
   "in_ndx_out_vol"; "sorter"; "at"]%string.

(** Every field a formula reads is available when the formula is evaluated:
    it is one of [avail], or the key of an earlier entry. *)
Fixpoint reads_available (avail : list string) (formulas : list (string * expr))
  : bool :=
  match formulas with
  | [] => true
  | (k, e) :: rest =>
      forallb (fun x => bool_decide (x ∈ avail)) (reads e)
      && reads_available (k :: avail) rest
  end.

(** Formulas of the shape [roundup(a / b, 0)]. *)
Definition rounds_a_quotient (e : expr) : bool :=
  match e with
  | Call fn [BinOp Div _ _; Int 0] => String.eqb fn "roundup"
  | _ => false
  end.

(** Formulas of the shape [roundup(a / row['at'], 0)]. *)
Definition divides_by_at (e : expr) : bool :=
  match e with
  | Call fn [BinOp Div _ (Subscript name key); Int 0] =>
      String.eqb fn "roundup" && String.eqb name "row" && String.eqb key "at"
  | _ => false
  end.

(** The registry keys whose formula is [roundup(a / row['at'], 0)]. *)
Definition at_quotient_keys (formulas : list (string * expr)) : list string :=
  fst <$> List.filter (fun entry => divides_by_at entry.2) formulas.

(** The values [v] with [v == 0]: the int [0] and the floats [0.0], [-0.0]. *)
Definition is_zero_value (v : value) : bool :=
  match v with
  | VInt n => n =? 0
  | VFloat f => PrimFloat.is_zero f
  | _ => false
  end.

(** ** Dependencies between fields *)

(** The fields whose value after an evaluation may depend on the fields
    [changed] of the record given to it. The registry is followed in its
    order: a locked entry is skipped, so its key keeps its status; an
    unlocked entry whose formula reads one of the fields joins them; any
    other unlocked entry is recomputed from fields outside them, and leaves
    them. *)
Fixpoint affected (locked_keys : list string) (formulas : list (string * expr))
    (changed : list string) : list string :=
  match formulas with
  | [] => changed
  | (k, e) :: rest =>
      affected locked_keys rest
        (if bool_decide (k ∈ locked_keys) then changed
         else if existsb (fun x => bool_decide (x ∈ changed)) (reads e)
              then k :: changed
              else List.filter (fun x => negb (String.eqb x k)) changed)
  end.

(** ** The dashboard *)

(** The record [main] computes for one shift, from the shift's base record
    and the two numbers entered by the user ([st.number_input] with a float
    default returns a float, which [float] leaves as it is):
[[
            working_row = dict(base_row)
            working_row['per_day_ndx'] = float(input_per_day_ndx)
            working_row['per_day_dox'] = float(input_per_day_dox)
            computed_row = compute_derived(working_row, locked_keys=['per_day_ndx', 'per_day_dox'])
]] *)
Definition shift_row (base_row : gmap string value)
    (input_per_day_ndx input_per_day_dox : float) : outcome (gmap string value) :=
  let working_row := base_row in
  let working_row := <["per_day_ndx"%string := VFloat input_per_day_ndx]> working_row in
  let working_row := <["per_day_dox"%string := VFloat input_per_day_dox]> working_row in
  compute_derived working_row (Some ["per_day_ndx"; "per_day_dox"]%string).

(** [bool(v)] *)
Definition py_truthy (v : value) : bool :=
  match v with
  | VNone => false
  | VInt n => negb (n =? 0)
  | VFloat f => negb (PrimFloat.is_zero f)
  | VStr s => negb (String.eqb s EmptyString)
  end.

(** [float(v)]; the parsing of a string is left out of the model. *)
Definition py_float (v : value) : outcome float :=
  match v with
  | VNone => Raise TypeError
  | VInt n => float_of_int n
  | VFloat f => Ok f
  | VStr _ => Unmodelled
  end.

(** [float(baseline_row.get(key, 0) or 0)] *)
Definition default_input (baseline_row : gmap string value) (key : string)
  : outcome float :=
  let x := default (VInt 0) (baseline_row !! key) in
  py_float (if py_truthy x then x else VInt 0).

(** The defaults of the two inputs, from the first record of the hub:
[[
    baseline_row = compute_derived(hub_df.iloc[0].to_dict())
    default_ndx = float(baseline_row.get('per_day_ndx', 0) or 0)
    default_dox = float(baseline_row.get('per_day_dox', 0) or 0)
]] *)
Definition default_inputs (first_row : gmap string value) : outcome (float * float) :=
  baseline_row ← compute_derived first_row None;
  default_ndx ← default_input baseline_row "per_day_ndx";
  default_dox ← default_input baseline_row "per_day_dox";
  Ok (default_ndx, default_dox).
(** * Properties *)

(** Closed decidable facts about the registry are settled by evaluation. *)
Ltac by_evaluation :=
  match goal with
  | |- ?P => apply (bool_decide_unpack P); vm_compute; exact I
  end.

(** ** Outcomes *)

Lemma modelled_bind {A B : Type} (m : outcome A) (k : A -> outcome B) :
  modelled m -> (forall a, m = Ok a -> modelled (k a)) -> modelled (m ≫= k).
Proof.
  intros Hm Hk. destruct m as [a| |]; simpl; [by apply Hk | done | done].
Qed.

Lemma modelled_fmap {A B : Type} (g : A -> B) (m : outcome A) :
  modelled m -> modelled (g <$> m).
Proof. by destruct m. Qed.

Lemma float_of_int_modelled n : modelled (float_of_int n).
Proof. unfold float_of_int. by destruct (binary_normalize _ _ _ _ _). Qed.

Lemma int_truediv_modelled a b : modelled (int_truediv a b).
Proof.
  unfold int_truediv. destruct (b =? 0); [done|]. destruct (a =? 0); [done|].
  destruct (SFdiv_core_binary _ _ _ _ _ _) as [[mz ez] lz].
  by destruct (binary_round_aux _ _ _ _ _ _).
Qed.

Lemma float_binop_modelled op a b : modelled (float_binop op a b).
Proof.
  destruct op; simpl; try done. unfold float_truediv. by destruct (PrimFloat.is_zero b).
Qed.

Lemma py_binop_modelled op a b : modelled (py_binop op a b).
Proof.
  destruct a as [|x|x|x], b as [|y|y|y]; simpl; try done.
  - destruct op; simpl; try done. apply modelled_fmap, int_truediv_modelled.
  - apply modelled_bind; [apply float_of_int_modelled|].
    intros fx _. apply modelled_fmap, float_binop_modelled.
  - by destruct op.
  - apply modelled_bind; [apply float_of_int_modelled|].
    intros fy _. apply modelled_fmap, float_binop_modelled.
  - apply modelled_fmap, float_binop_modelled.
  - by destruct op.
  - by destruct op.
Qed.

Lemma py_gt_modelled a b : modelled (py_gt a b).
Proof. by destruct a, b. Qed.

Lemma py_max_from_modelled rest : forall best, modelled (py_max_from best rest).
Proof.
  induction rest as [|item rest IH]; intros best; simpl; [done|].
  apply modelled_bind; [apply py_gt_modelled | intros g _; apply IH].
Qed.

Lemma py_min_from_modelled rest : forall best, modelled (py_min_from best rest).
Proof.
  induction rest as [|item rest IH]; intros best; simpl; [done|].
  apply modelled_bind; [apply py_gt_modelled | intros g _; apply IH].
Qed.

Lemma py_sum_from_modelled items : forall acc, modelled (py_sum_from acc items).
Proof.
  induction items as [|item items IH]; intros acc; simpl; [done|].
  apply modelled_bind; [apply py_binop_modelled | intros acc' _; apply IH].
Qed.

Lemma py_sum_floats_modelled items : forall f c, modelled (py_sum_floats f c items).
Proof.
  induction items as [|item items IH]; intros f c; [done|].
  assert (Hgen : modelled (py_binop Add (VFloat (compensated f c)) item
                           ≫= fun acc => py_sum_from acc items)).
  { apply modelled_bind; [apply py_binop_modelled | intros; apply py_sum_from_modelled]. }
  destruct item as [|n|x|s]; simpl; [done| |apply IH|done].
  destruct (fits_long n); [|done].
  apply modelled_bind; [apply float_of_int_modelled | intros; apply IH].
Qed.

Lemma py_sum_ints_modelled items : forall i, modelled (py_sum_ints i items).
Proof.
  induction items as [|item items IH]; intros i; [done|].
  assert (Hgen : modelled (py_binop Add (VInt i) item ≫= fun acc =>
                   match acc with
                   | VFloat f => py_sum_floats f PrimFloat.zero items
                   | _ => py_sum_from acc items
                   end)).
  { apply modelled_bind; [apply py_binop_modelled|].
    intros [|n|x|s] _;
      [apply py_sum_from_modelled.. | apply py_sum_floats_modelled | apply py_sum_from_modelled]. }
  destruct item as [|b|x|s]; simpl; [done| |done|done].
  destruct (fits_long b && fits_long (i + b)); [apply IH|done].
Qed.

Lemma py_sum_start_modelled start items : modelled (py_sum_start start items).
Proof.
  destruct start as [|i|f|s]; simpl.
  - apply py_sum_from_modelled.
  - destruct (fits_long i); [apply py_sum_ints_modelled | apply py_sum_from_modelled].
  - apply py_sum_floats_modelled.
  - done.
Qed.

Lemma py_max_modelled items : modelled (py_max items).
Proof. destruct items; simpl; [done | apply py_max_from_modelled]. Qed.

Lemma py_min_modelled items : modelled (py_min items).
Proof. destruct items; simpl; [done | apply py_min_from_modelled]. Qed.

Lemma py_iter_modelled v : modelled (py_iter v).
Proof. by destruct v. Qed.

Lemma math_ceil_modelled v : modelled (math_ceil v).
Proof.
  destruct v as [|n|f|s]; simpl; try done.
  apply modelled_fmap. unfold float_ceil. by destruct (Prim2SF f).
Qed.

Lemma roundup_modelled x d : 0 <= d -> modelled (roundup x (VInt d)).
Proof.
  intros Hd. unfold roundup. simpl.
  destruct (Z.leb_spec 0 d) as [_|?]; [|lia]. simpl.
  apply modelled_bind; [apply py_binop_modelled | intros p _].
  apply modelled_bind; [apply math_ceil_modelled | intros c _].
  apply py_binop_modelled.
Qed.

Lemma call_list_modelled o items : modelled (call_list o items).
Proof.
  destruct o as [|[]]; simpl; try done;
    [apply py_max_modelled | apply py_sum_start_modelled | apply py_min_modelled].
Qed.

(** ** Expressions *)

Section ExprInduction.
Variable P : expr -> Prop.
Hypothesis P_Int : forall n, P (Int n).
Hypothesis P_Flt : forall f, P (Flt f).
Hypothesis P_Subscript : forall name key, P (Subscript name key).
Hypothesis P_BinOp : forall op a b, P a -> P b -> P (BinOp op a b).
Hypothesis P_Call : forall fn args, Forall P args -> P (Call fn args).
Hypothesis P_CallList : forall fn items, Forall P items -> P (CallList fn items).

Fixpoint expr_nested_ind (e : expr) : P e :=
  let all :=
    fix all (es : list expr) : Forall P es :=
      match es with
      | [] => @List.Forall_nil _ P
      | e' :: es' => @List.Forall_cons _ P e' es' (expr_nested_ind e') (all es')
      end in
  match e with
  | Int n => P_Int n
  | Flt f => P_Flt f
  | Subscript name key => P_Subscript name key
  | BinOp op a b => P_BinOp op a b (expr_nested_ind a) (expr_nested_ind b)
  | Call fn args => P_Call fn args (all args)
  | CallList fn items => P_CallList fn items (all items)
  end.
End ExprInduction.

Lemma eval_BinOp r op a b :
  eval r (BinOp op a b) = eval r a ≫= fun x => eval r b ≫= fun y => py_binop op x y.
Proof. reflexivity. Qed.

Lemma eval_Call r fn args :
  eval r (Call fn args) =
  match resolve fn with
  | None => Unmodelled
  | Some o => vs ← eval_all r args; call o vs
  end.
Proof. reflexivity. Qed.

Lemma eval_CallList r fn items :
  eval r (CallList fn items) =
  match resolve fn with
  | None => Unmodelled
  | Some o => vs ← eval_all r items; call_list o vs
  end.
Proof. reflexivity. Qed.

Lemma eval_all_modelled r es :
  Forall (fun e => in_fragment e = true -> modelled (eval r e)) es ->
  forallb in_fragment es = true -> modelled (eval_all r es).
Proof.
  induction 1 as [|e es He _ IH]; simpl; [done|].
  intros [H1 H2]%andb_prop.
  apply modelled_bind; [by apply He | intros v _].
  apply modelled_bind; [by apply IH | done].
Qed.

Lemma eval_modelled r e : in_fragment e = true -> modelled (eval r e).
Proof.
  induction e as [n|f|name key|op a b IHa IHb|fn args IH|fn items IH]
    using expr_nested_ind; intros Hfrag.
  - done.
  - done.
  - simpl in *. unfold resolves in Hfrag.
    destruct (resolve name) as [[|g]|]; [|done|done]. by destruct (r !! key).
  - simpl in Hfrag. apply andb_prop in Hfrag as [Ha Hb]. simpl.
    apply modelled_bind; [by apply IHa | intros x _].
    apply modelled_bind; [by apply IHb | intros y _]. apply py_binop_modelled.
  - simpl in Hfrag. apply andb_prop in Hfrag as [Hres [Hargs Hdig]%andb_prop].
    rewrite eval_Call. unfold resolves in Hres.
    destruct (resolve fn) as [o|]; [|done].
    pose proof (eval_all_modelled r args IH Hargs) as Hall.
    destruct o as [|[]].
    + by destruct (eval_all r args).
    + apply modelled_bind; [done|]. intros vs Hvs.
      destruct args as [|a [|d [|]]]; simpl in Hvs.
      * by injection Hvs as <-.
      * destruct (eval r a); simplify_eq/=. by apply roundup_modelled.
      * destruct d; try done. apply Z.leb_le in Hdig.
        destruct (eval r a); simplify_eq/=. by apply roundup_modelled.
      * destruct (eval r a), (eval r d), (eval r e), (eval_all r l); by simplify_eq/=.
    + apply modelled_bind; [done|]. intros [|x [|y vs]] _; simpl; [done| |].
      * apply modelled_bind; [apply py_iter_modelled | intros; apply py_max_modelled].
      * apply modelled_bind; [apply py_gt_modelled | intros; apply py_max_from_modelled].
    + apply modelled_bind; [done|]. intros [|x [|y [|z vs]]] _; simpl; try done.
      * apply modelled_bind; [apply py_iter_modelled | intros; apply py_sum_start_modelled].
      * apply modelled_bind; [apply py_iter_modelled | intros; apply py_sum_start_modelled].
    + apply modelled_bind; [done|]. intros [|x [|y vs]] _; simpl; [done| |].
      * apply modelled_bind; [apply py_iter_modelled | intros; apply py_min_modelled].
      * apply modelled_bind; [apply py_gt_modelled | intros; apply py_min_from_modelled].
    + apply modelled_bind; [done|]. intros [|x [|y vs]] _; simpl; try done.
      by destruct x.
  - simpl in Hfrag. apply andb_prop in Hfrag as [Hres Hfrag].
    rewrite eval_CallList. unfold resolves in Hres.
    destruct (resolve fn) as [o|]; [|done].
    apply modelled_bind; [by apply eval_all_modelled | intros vs _].
    apply call_list_modelled.
Qed.

(** ** The engine as a fold *)

Lemma run_app pre post locked r :
  run (pre ++ post) locked r = run post locked (run pre locked r).
Proof. apply foldl_app. Qed.

Lemma run_cons key e post locked r :
  run ((key, e) :: post) locked r = run post locked (step locked r (key, e)).
Proof. reflexivity. Qed.

Lemma store_formula_stored key e r :
  modelled (eval r e) -> store_formula key e r = Ok (<[key := stored (eval r e)]> r).
Proof. unfold store_formula. by destruct (eval r e). Qed.

Lemma eval_formulas_run formulas locked :
  registry_in_fragment formulas = true ->
  forall r, eval_formulas formulas locked r = Ok (run formulas locked r).
Proof.
  induction formulas as [|[key e] rest IH]; intros Hfrag r; [done|].
  apply andb_prop in Hfrag as [He Hrest]. simpl in He.
  rewrite run_cons. unfold step. simpl. destruct (decide (key ∈ locked)); [by apply IH|].
  rewrite store_formula_stored by by apply eval_modelled. simpl. by apply IH.
Qed.

Lemma FORMULAS_in_fragment : registry_in_fragment FORMULAS = true.
Proof. vm_compute. reflexivity. Qed.

Lemma compute_derived_run r locked_keys :
  compute_derived r locked_keys = Ok (run FORMULAS (locked_set locked_keys) r).
Proof. apply eval_formulas_run, FORMULAS_in_fragment. Qed.

(** A key outside the remaining entries keeps its binding. *)
Lemma run_frame formulas locked k :
  k ∉ registry_keys formulas ->
  forall r, run formulas locked r !! k = r !! k.
Proof.
  induction formulas as [|[key e] rest IH]; intros Hk r; [done|].
  apply not_elem_of_cons in Hk as [Hne Hrest]. rewrite run_cons, IH by done.
  unfold step. simpl. destruct (decide (key ∈ locked)); [done|].
  by rewrite lookup_insert_ne.
Qed.

(** A locked key keeps its binding. *)
Lemma run_locked formulas locked k :
  k ∈ locked -> forall r, run formulas locked r !! k = r !! k.
Proof.
  intros Hk. induction formulas as [|[key e] rest IH]; intros r; [done|].
  rewrite run_cons, IH. unfold step. simpl.
  destruct (decide (key ∈ locked)); [done|].
  rewrite lookup_insert_ne; [done | set_solver].
Qed.

(** An unlocked entry leaves its formula's value, or NaN, under its key. *)
Lemma run_lookup pre key e post locked r :
  NoDup (registry_keys (pre ++ (key, e) :: post)) ->
  key ∉ locked ->
  run (pre ++ (key, e) :: post) locked r !! key
  = Some (stored (eval (run pre locked r) e)).
Proof.
  intros Hnd Hkey. rewrite run_app, run_cons.
  unfold registry_keys in Hnd. rewrite fmap_app, fmap_cons in Hnd.
  apply NoDup_app in Hnd as (_ & _ & Hnd). apply NoDup_cons in Hnd as [Hnotin _].
  rewrite run_frame by done. unfold step. simpl.
  destruct (decide (key ∈ locked)); [done|]. by rewrite lookup_insert_eq.
Qed.

Lemma FORMULAS_NoDup : NoDup (registry_keys FORMULAS).
Proof. apply (bool_decide_unpack (NoDup (registry_keys FORMULAS))). vm_compute. exact I. Qed.

Lemma eval_formulas_app pre post locked r :
  eval_formulas (pre ++ post) locked r
  = eval_formulas pre locked r ≫= eval_formulas post locked.
Proof.
  revert r. induction pre as [|[key e] pre IH]; intros r; simpl; [done|].
  destruct (decide (key ∈ locked)); [apply IH|].
  destruct (store_formula key e r); simpl; [apply IH|done|done].
Qed.

Lemma registry_in_fragment_app pre post :
  registry_in_fragment (pre ++ post) = true ->
  registry_in_fragment pre = true /\ registry_in_fragment post = true.
Proof. unfold registry_in_fragment. rewrite forallb_app. apply andb_prop. Qed.

Lemma FORMULAS_split_fragment pre key e post :
  FORMULAS = pre ++ (key, e) :: post ->
  registry_in_fragment pre = true /\ in_fragment e = true
  /\ registry_in_fragment post = true.
Proof.
  intros Heq. pose proof FORMULAS_in_fragment as H. rewrite Heq in H.
  apply registry_in_fragment_app in H as [Hpre H].
  apply andb_prop in H as [He Hpost]. done.
Qed.

(** ** Which keys the evaluated record holds *)

(** C2, as stated, fails: a locked registry key that the caller did not
    supply is skipped, so the returned record has no value for it. *)
Lemma locked_absent_key_stays_absent :
  "packet"%string ∈ registry_keys FORMULAS /\
  exists r', compute_derived ∅ (Some ["packet"%string]) = Ok r'
             /\ r' !! "packet"%string = None.
Proof.
  split.
  - apply (bool_decide_unpack _). vm_compute. exact I.
  - eexists. split; [apply compute_derived_run|]. vm_compute. reflexivity.
Qed.

(** C2, amended: for every record and every locked-key set, in the returned
    record every locked key is bound exactly as the caller supplied it (to
    the same value, or not at all when the caller supplied none), and every
    registry key that is not locked holds the value of its formula, or NaN
    when the formula raised. Hence the record holds a value for every
    registry key whenever the caller supplied a value for each locked one. *)
Theorem compute_derived_populates
    (r : gmap string value) (locked_keys : option (list string)) :
  exists r', compute_derived r locked_keys = Ok r' /\
    (forall k, k ∈ locked_set locked_keys -> r' !! k = r !! k) /\
    (forall pre k e post,
        FORMULAS = pre ++ (k, e) :: post ->
        k ∉ locked_set locked_keys ->
        exists r_pre,
          eval_formulas pre (locked_set locked_keys) r = Ok r_pre /\
          ((exists v, eval r_pre e = Ok v /\ r' !! k = Some v) \/
           (exists x, eval r_pre e = Raise x /\ r' !! k = Some NaN))) /\
    ((forall k, k ∈ registry_keys FORMULAS -> k ∈ locked_set locked_keys ->
                is_Some (r !! k)) ->
     forall k, k ∈ registry_keys FORMULAS -> is_Some (r' !! k)).
Proof.
  exists (run FORMULAS (locked_set locked_keys) r).
  split; [apply compute_derived_run|].
  assert (Hunlocked : forall pre k e post,
    FORMULAS = pre ++ (k, e) :: post ->
    k ∉ locked_set locked_keys ->
    exists r_pre,
      eval_formulas pre (locked_set locked_keys) r = Ok r_pre /\
      ((exists v, eval r_pre e = Ok v
                  /\ run FORMULAS (locked_set locked_keys) r !! k = Some v) \/
       (exists x, eval r_pre e = Raise x
                  /\ run FORMULAS (locked_set locked_keys) r !! k = Some NaN))).
  { intros pre k e post Heq Hk. exists (run pre (locked_set locked_keys) r).
    destruct (FORMULAS_split_fragment _ _ _ _ Heq) as (Hpre & He & _).
    split; [by apply eval_formulas_run|].
    assert (Hlk : run FORMULAS (locked_set locked_keys) r !! k
                  = Some (stored (eval (run pre (locked_set locked_keys) r) e))).
    { rewrite Heq. apply run_lookup; [|done]. rewrite <- Heq. apply FORMULAS_NoDup. }
    rewrite Hlk. pose proof (eval_modelled (run pre (locked_set locked_keys) r) e He).
    destruct (eval (run pre (locked_set locked_keys) r) e); simpl; [eauto|eauto|done]. }
  split; [intros k Hk; by apply run_locked|]. split; [exact Hunlocked|].
  intros Hsupplied k Hk.
  destruct (decide (k ∈ locked_set locked_keys)) as [Hl|Hl].
  - rewrite run_locked by done. by apply Hsupplied.
  - apply list_elem_of_fmap in Hk as ([k' e] & -> & Hin).
    apply list_elem_of_split in Hin as (pre & post & Heq).
    change ((k', e).1) with k' in *.
    destruct (Hunlocked pre k' e post Heq Hl)
      as (r_pre & _ & [(v & _ & Hv)|(x & _ & Hv)]); rewrite Hv; eexists; reflexivity.
Qed.

Lemma compute_derived_populates_witness :
  exists r', compute_derived ∅ None = Ok r' /\
    r' !! "in_avg_wt_cn"%string = Some NaN /\
    forall k, k ∈ registry_keys FORMULAS -> is_Some (r' !! k).
Proof.
  destruct (compute_derived_populates ∅ None) as (r' & Hret & _ & Hunlocked & Hall).
  exists r'. split; [exact Hret|]. split.
  - destruct (Hunlocked [] "in_avg_wt_cn"%string
                (row["in_ndx_vol_wt"] / row["in_ndx_out_vol"])%py (tail FORMULAS))
      as (r_pre & Hpre & Hcases).
    + reflexivity.
    + apply not_elem_of_empty.
    + injection Hpre as <-.
      destruct Hcases as [(v & Hv & _)|(x & _ & Hnan)]; [discriminate Hv | exact Hnan].
  - apply Hall. intros k _ Hk. destruct (not_elem_of_empty (C:=gset string) k Hk).
Defined.

(** ** Locked keys *)

(** C3: for any key [k] and value [v], a record that binds [k] to [v],
    evaluated with [k] among the locked keys, still binds [k] to [v]
    afterwards; and the formula of [k] plays no part in that call: putting
    any other formula in its place leaves the whole outcome unchanged. *)
Theorem lock_fidelity (k : string) (v : value)
    (r : gmap string value) (locked_keys : option (list string)) :
  r !! k = Some v ->
  k ∈ locked_set locked_keys ->
  (exists r', compute_derived r locked_keys = Ok r' /\ r' !! k = Some v) /\
  (forall e', eval_formulas (replace_formula k e' FORMULAS) (locked_set locked_keys) r
              = compute_derived r locked_keys).
Proof.
  intros Hv Hk. split.
  - eexists. split; [apply compute_derived_run|]. by rewrite run_locked.
  - intros e'. unfold compute_derived. generalize r. clear r Hv.
    induction FORMULAS as [|[key e] rest IH]; intros r; [done|]. simpl.
    destruct (String.eqb_spec key k) as [->|Hne]; simpl.
    + destruct (decide (k ∈ locked_set locked_keys)); [apply IH|done].
    + destruct (decide (key ∈ locked_set locked_keys)); [apply IH|].
      destruct (store_formula key e r); simpl; [apply IH|done|done].
Qed.

Lemma lock_fidelity_witness :
  (exists r', compute_derived {["per_day_ndx"%string := VFloat 12%float]}
                (Some ["per_day_ndx"%string]) = Ok r'
              /\ r' !! "per_day_ndx"%string = Some (VFloat 12%float)) /\
  (forall e', eval_formulas (replace_formula "per_day_ndx" e' FORMULAS)
                (locked_set (Some ["per_day_ndx"%string]))
                {["per_day_ndx"%string := VFloat 12%float]}
              = compute_derived {["per_day_ndx"%string := VFloat 12%float]}
                  (Some ["per_day_ndx"%string])).
Proof.
  apply (lock_fidelity "per_day_ndx" (VFloat 12%float)
           {["per_day_ndx"%string := VFloat 12%float]} (Some ["per_day_ndx"%string])).
  - reflexivity.
  - vm_compute. reflexivity.
Defined.

(** ** Keys outside the registry *)

Lemma base_field_not_registry_key k :
  k ∈ BASE_INPUT_FIELDS -> k ∉ registry_keys FORMULAS.
Proof.
  revert k. apply Forall_forall.
  apply (bool_decide_unpack (Forall (fun k => k ∉ registry_keys FORMULAS)
                               BASE_INPUT_FIELDS)).
  vm_compute. exact I.
Qed.

(** C10: [compute_derived] writes registry keys only. For every record,
    every locked-key set and every field name outside the registry, the
    binding of the field after the evaluation, present or absent, is its
    binding before; and no base input field is a registry key, so this holds
    of every base input field. *)
Theorem compute_derived_frame
    (r : gmap string value) (locked_keys : option (list string)) (k : string) :
  (k ∉ registry_keys FORMULAS ->
   exists r', compute_derived r locked_keys = Ok r' /\ r' !! k = r !! k) /\
  (k ∈ BASE_INPUT_FIELDS -> k ∉ registry_keys FORMULAS).
Proof.
  split.
  - intros Hk. eexists. split; [apply compute_derived_run|]. by apply run_frame.
  - apply base_field_not_registry_key.
Qed.

Lemma compute_derived_frame_witness :
  exists r', compute_derived {["at"%string := VInt 20]} None = Ok r'
             /\ r' !! "at"%string = Some (VInt 20).
Proof.
  destruct (compute_derived_frame {["at"%string := VInt 20]} None "at") as [Hframe Hbase].
  destruct Hframe as (r' & Hret & Hat).
  - apply Hbase. apply (bool_decide_unpack _). vm_compute. exact I.
  - exists r'. split; [exact Hret|]. rewrite Hat. reflexivity.
Defined.

(** ** What a formula depends on *)

Lemma eval_all_ext r1 r2 es :
  Forall (fun e => (forall k, k ∈ reads e -> r1 !! k = r2 !! k) ->
                   eval r1 e = eval r2 e) es ->
  (forall k, k ∈ flat_map reads es -> r1 !! k = r2 !! k) ->
  eval_all r1 es = eval_all r2 es.
Proof.
  induction 1 as [|e es He _ IH]; intros Hagree; [done|]. simpl in *.
  rewrite He, IH; [done| |]; intros k Hk; apply Hagree, elem_of_app; auto.
Qed.

(** A formula sees the record only through the keys it reads. *)
Lemma eval_ext r1 r2 e :
  (forall k, k ∈ reads e -> r1 !! k = r2 !! k) -> eval r1 e = eval r2 e.
Proof.
  induction e as [n|f|name key|op a b IHa IHb|fn args IH|fn items IH]
    using expr_nested_ind; intros Hagree.
  - done.
  - done.
  - simpl. rewrite (Hagree key) by (simpl; set_solver). done.
  - simpl in *. rewrite IHa, IHb; [done| |]; intros k Hk; apply Hagree, elem_of_app; auto.
  - rewrite !eval_Call. by rewrite (eval_all_ext r1 r2 args IH Hagree).
  - rewrite !eval_CallList. by rewrite (eval_all_ext r1 r2 items IH Hagree).
Qed.

Lemma reads_only_earlier_app pre post :
  reads_only_earlier (pre ++ post) = true -> reads_only_earlier post = true.
Proof.
  induction pre as [|[k e] pre IH]; [done|]. simpl.
  intros [_ H]%andb_prop. by apply IH.
Qed.

Lemma reads_only_earlier_head k e post x :
  reads_only_earlier ((k, e) :: post) = true ->
  x ∈ reads e -> x ∉ registry_keys ((k, e) :: post).
Proof.
  simpl. intros [H _]%andb_prop Hx.
  rewrite forallb_forall in H. apply list_elem_of_In, H in Hx.
  apply negb_true_iff, bool_decide_eq_false in Hx. done.
Qed.

(** In the evaluated record, every unlocked registry key holds the value
    of its formula on the evaluated record itself (or NaN where that
    raises). *)
Lemma run_fixed formulas locked r k e :
  NoDup (registry_keys formulas) ->
  reads_only_earlier formulas = true ->
  (k, e) ∈ formulas ->
  k ∉ locked ->
  run formulas locked r !! k = Some (stored (eval (run formulas locked r) e)).
Proof.
  intros Hnd Hord Hin Hk.
  apply list_elem_of_split in Hin as (pre & post & ->).
  rewrite run_lookup by done. f_equal. f_equal.
  apply eval_ext. intros x Hx. rewrite run_app. symmetry. apply run_frame.
  apply reads_only_earlier_app in Hord. by eapply reads_only_earlier_head.
Qed.

Lemma run_id formulas locked r :
  (forall k e, (k, e) ∈ formulas -> k ∉ locked ->
               r !! k = Some (stored (eval r e))) ->
  run formulas locked r = r.
Proof.
  induction formulas as [|[k e] rest IH]; intros Hfix; [done|].
  rewrite run_cons. unfold step. simpl.
  destruct (decide (k ∈ locked)).
  - apply IH. intros k' e' Hin. apply Hfix. by right.
  - rewrite insert_id by (apply Hfix; [left|done]).
    apply IH. intros k' e' Hin. apply Hfix. by right.
Qed.

Lemma FORMULAS_reads_only_earlier : reads_only_earlier FORMULAS = true.
Proof. vm_compute. reflexivity. Qed.

Lemma compute_derived_fixed r locked_keys k e :
  (k, e) ∈ FORMULAS ->
  k ∉ locked_set locked_keys ->
  run FORMULAS (locked_set locked_keys) r !! k
  = Some (stored (eval (run FORMULAS (locked_set locked_keys) r) e)).
Proof.
  apply run_fixed; [apply FORMULAS_NoDup | apply FORMULAS_reads_only_earlier].
Qed.

(** ** The engine never raises *)



(** ** Idempotence *)

(** C9: evaluating an already evaluated record again, with the same (in
    particular the empty) locked-key set, returns that record unchanged:
    [compute_derived (compute_derived r) = compute_derived r]. This holds of
    every record, whether or not all base input fields are present. *)
Theorem compute_derived_idempotent
    (r : gmap string value) (locked_keys : option (list string)) :
  exists r', compute_derived r locked_keys = Ok r'
             /\ compute_derived r' locked_keys = Ok r'.
Proof.
  exists (run FORMULAS (locked_set locked_keys) r).
  split; [apply compute_derived_run|].
  rewrite compute_derived_run.
  rewrite (run_id FORMULAS (locked_set locked_keys)); [reflexivity|].
  intros k e. apply compute_derived_fixed.
Qed.

(** ** The fields rounded up *)

Lemma rounded_keys_formula formulas k :
  k ∈ rounded_keys formulas ->
  exists a, (k, Call "roundup" [a; Int 0]) ∈ formulas.
Proof.
  unfold rounded_keys. intros ([k' e] & -> & Hin)%list_elem_of_fmap.
  apply list_elem_of_In, filter_In in Hin as [Hin He]. simpl in *.
  destruct e as [| | | |fn args|]; try done.
  destruct args as [|a [|d [|]]]; try done;
    destruct d as [d| | | | |]; try done; destruct d; try done.
  apply String.eqb_eq in He as ->.
  exists a. by apply list_elem_of_In.
Qed.

Lemma math_ceil_int v c : math_ceil v = Ok c -> exists n, c = VInt n.
Proof.
  destruct v as [|n|f|s]; simpl; try done.
  - intros [= <-]. eauto.
  - destruct (float_ceil f); simpl; [|done|done]. intros [= <-]. eauto.
Qed.

(** Whatever [roundup] returns is a float. *)
Lemma roundup_float x digits v : roundup x digits = Ok v -> exists f, v = VFloat f.
Proof.
  unfold roundup. destruct digits as [|d|d|d]; simpl; try done.
  destruct (0 <=? d); simpl; [|done].
  destruct (py_binop Mul x (VInt (10 ^ d))) as [p| |]; simpl; [|done|done].
  destruct (math_ceil p) as [c| |] eqn:Hc; simpl; [|done|done].
  apply math_ceil_int in Hc as [n ->]. simpl.
  destruct (int_truediv n (10 ^ d)); simpl; [|done|done]. intros [= <-]. eauto.
Qed.

Lemma eval_roundup r a :
  eval r (Call "roundup" [a; Int 0]) = eval r a ≫= fun x => roundup x (VInt 0).
Proof. rewrite eval_Call. simpl. by destruct (eval r a). Qed.

Lemma stored_roundup_float r a :
  exists f, stored (eval r (Call "roundup" [a; Int 0])) = VFloat f.
Proof.
  rewrite eval_roundup. destruct (eval r a) as [x| |]; simpl; [|by eexists..].
  destruct (roundup x (VInt 0)) as [v| |] eqn:Hv; simpl; [|by eexists..].
  by apply roundup_float in Hv.
Qed.

(** After an evaluation, an unlocked key whose formula is [roundup(a, 0)]
    holds a float. *)
Lemma rounded_key_float r locked_keys k :
  k ∈ rounded_keys FORMULAS ->
  k ∉ locked_set locked_keys ->
  run FORMULAS (locked_set locked_keys) r !! k
  = Some (VFloat (float_at (run FORMULAS (locked_set locked_keys) r) k)).
Proof.
  intros [a Hin]%rounded_keys_formula Hk.
  pose proof (compute_derived_fixed r locked_keys _ _ Hin Hk) as Hfix.
  destruct (stored_roundup_float (run FORMULAS (locked_set locked_keys) r) a) as [f Hf].
  rewrite Hf in Hfix. unfold float_at. by rewrite Hfix.
Qed.

(** ** The two staffing totals *)

Lemma eval_all_rows r (g : string -> value) ks :
  (forall k, k ∈ ks -> r !! k = Some (g k)) ->
  eval_all r (Subscript "row" <$> ks) = Ok (g <$> ks).
Proof.
  induction ks as [|k ks IH]; intros Hg; [done|].
  rewrite fmap_cons. simpl. rewrite (Hg k) by left. simpl.
  rewrite IH; [done|]. intros k' Hk'. apply Hg. by right.
Qed.

Lemma py_sum_floats_floats {K : Type} (g : K -> float) ks : forall f c,
  py_sum_floats f c ((fun k => VFloat (g k)) <$> ks)
  = Ok (VFloat (float_sum_from f c (g <$> ks))).
Proof. induction ks as [|k ks IH]; intros f c; [done|]. simpl. apply IH. Qed.

(** [sum([row[k1], ..., row[kn]])] over keys that hold floats. *)
Lemma eval_sum_floats r ks :
  ks <> [] ->
  (forall k, k ∈ ks -> r !! k = Some (VFloat (float_at r k))) ->
  eval r (CallList "sum" (Subscript "row" <$> ks))
  = Ok (VFloat (float_sum (float_at r <$> ks))).
Proof.
  intros Hne Hks. rewrite eval_CallList.
  rewrite (eval_all_rows r (fun k => VFloat (float_at r k))) by exact Hks.
  destruct ks as [|k ks]; [done|]. simpl. unfold py_sum, py_sum_start. simpl.
  apply py_sum_floats_floats.
Qed.

Lemma manpower_pool_rows : manpower_pool = Subscript "row" <$> manpower_pool_keys.
Proof. reflexivity. Qed.

Lemma manpower_pool_rounded k :
  k ∈ manpower_pool_keys -> k ∈ rounded_keys FORMULAS.
Proof.
  revert k. apply Forall_forall.
  apply (bool_decide_unpack (Forall (fun k => k ∈ rounded_keys FORMULAS)
                               manpower_pool_keys)).
  vm_compute. exact I.
Qed.

(** A field that no formula reads has no influence on the other fields. *)
Lemma run_irrelevant_field formulas locked b :
  b ∉ flat_map (fun entry => reads entry.2) formulas ->
  forall r1 r2,
    (forall k, k <> b -> r1 !! k = r2 !! k) ->
    forall k, k <> b -> run formulas locked r1 !! k = run formulas locked r2 !! k.
Proof.
  induction formulas as [|[key e] rest IH]; intros Hb r1 r2 Hagree; [done|].
  simpl in Hb. apply not_elem_of_app in Hb as [Hbe Hbrest].
  rewrite !run_cons. apply IH; [done|]. intros k Hk. unfold step. simpl.
  destruct (decide (key ∈ locked)); [by apply Hagree|].
  assert (Heval : eval r1 e = eval r2 e).
  { apply eval_ext. intros x Hx. apply Hagree. by intros ->. }
  rewrite Heval. destruct (decide (key = k)) as [->|Hne].
  - by rewrite !lookup_insert_eq.
  - rewrite !lookup_insert_ne by done. by apply Hagree.
Qed.

Lemma sorter_not_read :
  "sorter"%string ∉ flat_map (fun entry : string * expr => reads entry.2) FORMULAS.
Proof.
  apply (bool_decide_unpack
           ("sorter"%string ∉ flat_map (fun entry : string * expr => reads entry.2)
                                FORMULAS)).
  vm_compute. exact I.
Qed.

Lemma with_sorter_entry :
  ("manpower_with_sorter"%string,
   (CallList "sum" manpower_pool
    - row["manpower_in_units_with_no_sorter_manual_sorting_units"])%py) ∈ FORMULAS.
Proof. apply (list_elem_of_lookup_2 _ 45). reflexivity. Qed.

Lemma without_sorter_entry :
  ("manpower_without_sorter"%string,
   (CallList "sum" manpower_pool
    - row["manpower_in_units_with_sorter_sorter_unit"]
    - row["manpower_in_units_with_sorter_non_cony"])%py) ∈ FORMULAS.
Proof. apply (list_elem_of_lookup_2 _ 46). reflexivity. Qed.

Lemma staffing_totals_eval r' :
  (forall k, k ∈ manpower_pool_keys -> r' !! k = Some (VFloat (float_at r' k))) ->
  eval r' (CallList "sum" manpower_pool
           - row["manpower_in_units_with_no_sorter_manual_sorting_units"])%py
  = Ok (VFloat
      (PrimFloat.sub
         (float_sum (float_at r' <$> manpower_pool_keys))
         (float_at r' "manpower_in_units_with_no_sorter_manual_sorting_units"))) /\
  eval r' (CallList "sum" manpower_pool
           - row["manpower_in_units_with_sorter_sorter_unit"]
           - row["manpower_in_units_with_sorter_non_cony"])%py
  = Ok (VFloat
      (PrimFloat.sub
         (PrimFloat.sub
            (float_sum (float_at r' <$> manpower_pool_keys))
            (float_at r' "manpower_in_units_with_sorter_sorter_unit"))
         (float_at r' "manpower_in_units_with_sorter_non_cony"))).
Proof.
  intros Hpool.
  assert (Hsum : eval r' (CallList "sum" manpower_pool)
                 = Ok (VFloat (float_sum (float_at r' <$> manpower_pool_keys)))).
  { rewrite manpower_pool_rows. by apply eval_sum_floats. }
  assert (Hrow : forall k, k ∈ manpower_pool_keys ->
                   eval r' (row[k]) = Ok (VFloat (float_at r' k))).
  { intros k Hk. cbn. by rewrite (Hpool k Hk). }
  split.
  - rewrite eval_BinOp, Hsum, Hrow; [reflexivity|]. by_evaluation.
  - rewrite !eval_BinOp, Hsum, !Hrow; [reflexivity | by_evaluation | by_evaluation].
Qed.

(** X2 (the subject of C8): whatever the sorter flag, both staffing totals
    are computed, from
    the same pool of the ten manpower-in-units fields: [manpower_with_sorter]
    is the sum of the ten minus
    [manpower_in_units_with_no_sorter_manual_sorting_units], and
    [manpower_without_sorter] is the sum of the ten minus
    [manpower_in_units_with_sorter_sorter_unit] and minus
    [manpower_in_units_with_sorter_non_cony] (the sum as [sum] adds ten
    floats, [float_sum], and the differences in float arithmetic). This
    holds of every record and of every locked-key set
    that locks none of the twelve keys; setting, changing or removing the
    [sorter] field changes no other field of the result. *)
Theorem staffing_totals
    (r : gmap string value) (locked_keys : option (list string)) :
  (forall k, k ∈ manpower_pool_keys ++
             ["manpower_with_sorter"; "manpower_without_sorter"]%string ->
             k ∉ locked_set locked_keys) ->
  exists r', compute_derived r locked_keys = Ok r' /\
    length manpower_pool_keys = 10%nat /\
    (forall k, k ∈ manpower_pool_keys -> r' !! k = Some (VFloat (float_at r' k))) /\
    r' !! "manpower_with_sorter"%string
    = Some (VFloat
        (PrimFloat.sub
           (float_sum (float_at r' <$> manpower_pool_keys))
           (float_at r' "manpower_in_units_with_no_sorter_manual_sorting_units"))) /\
    r' !! "manpower_without_sorter"%string
    = Some (VFloat
        (PrimFloat.sub
           (PrimFloat.sub
              (float_sum (float_at r' <$> manpower_pool_keys))
              (float_at r' "manpower_in_units_with_sorter_sorter_unit"))
           (float_at r' "manpower_in_units_with_sorter_non_cony"))) /\
    (forall flag : option value,
      exists r'', compute_derived (partial_alter (fun _ => flag) "sorter"%string r)
                    locked_keys = Ok r''
                  /\ forall k, k <> "sorter"%string -> r'' !! k = r' !! k).
Proof.
  intros Hunlocked.
  remember (run FORMULAS (locked_set locked_keys) r) as r' eqn:Hr'.
  exists r'. split; [rewrite Hr'; apply compute_derived_run|]. split; [reflexivity|].
  assert (Hpool : forall k, k ∈ manpower_pool_keys ->
                            r' !! k = Some (VFloat (float_at r' k))).
  { intros k Hk. rewrite Hr'. apply rounded_key_float; [by apply manpower_pool_rounded|].
    apply Hunlocked, elem_of_app. by left. }
  split; [exact Hpool|].
  destruct (staffing_totals_eval r' Hpool) as [Hwith Hwithout].
  split; [|split].
  - pose proof (compute_derived_fixed r locked_keys _ _ with_sorter_entry) as Hfix.
    rewrite <- Hr', Hwith in Hfix. apply Hfix, Hunlocked. by_evaluation.
  - pose proof (compute_derived_fixed r locked_keys _ _ without_sorter_entry) as Hfix.
    rewrite <- Hr', Hwithout in Hfix. apply Hfix, Hunlocked. by_evaluation.
  - intros flag. eexists. split; [apply compute_derived_run|].
    intros k Hk. rewrite Hr'.
    apply (run_irrelevant_field FORMULAS _ "sorter" sorter_not_read); [|done].
    intros k' Hk'. by rewrite lookup_partial_alter_ne.
Qed.

Lemma staffing_totals_witness :
  exists r', compute_derived scenario_A None = Ok r' /\
    r' !! "manpower_with_sorter"%string
    = Some (VFloat
        (PrimFloat.sub
           (float_sum (float_at r' <$> manpower_pool_keys))
           (float_at r' "manpower_in_units_with_no_sorter_manual_sorting_units"))).
Proof.
  destruct (staffing_totals scenario_A None) as (r' & Hret & _ & _ & Hwith & _).
  - intros k _. apply not_elem_of_empty.
  - exists r'. split; [exact Hret | exact Hwith].
Defined.

(** ** NaN in float arithmetic *)

Lemma Prim2SF_nan : Prim2SF nan = S754_nan.
Proof. reflexivity. Qed.

Lemma float_is_nan f : Prim2SF f = S754_nan -> f = nan.
Proof. intros H. apply Prim2SF_inj. by rewrite H. Qed.

Lemma float_binop_nan_l op y f : float_binop op nan y = Ok f -> f = nan.
Proof.
  destruct op; simpl; [| | |unfold float_truediv; destruct (PrimFloat.is_zero y); [done|]];
    intros [= <-]; apply float_is_nan.
  - by rewrite add_spec, Prim2SF_nan.
  - by rewrite sub_spec, Prim2SF_nan.
  - by rewrite mul_spec, Prim2SF_nan.
  - by rewrite div_spec, Prim2SF_nan.
Qed.

Lemma float_binop_nan_r op x f : float_binop op x nan = Ok f -> f = nan.
Proof.
  destruct op; simpl; [| | |unfold float_truediv; destruct (PrimFloat.is_zero nan); [done|]];
    intros [= <-]; apply float_is_nan.
  - rewrite add_spec, Prim2SF_nan. unfold SF64add, SFadd. by destruct (Prim2SF x).
  - rewrite sub_spec, Prim2SF_nan. unfold SF64sub, SFsub. by destruct (Prim2SF x).
  - rewrite mul_spec, Prim2SF_nan. unfold SF64mul, SFmul. by destruct (Prim2SF x).
  - rewrite div_spec, Prim2SF_nan. unfold SF64div, SFdiv. by destruct (Prim2SF x).
Qed.

Lemma float_ltb_nan_l x : PrimFloat.ltb nan x = false.
Proof. by rewrite ltb_spec, Prim2SF_nan. Qed.

Lemma float_ltb_nan_r x : PrimFloat.ltb x nan = false.
Proof. rewrite ltb_spec, Prim2SF_nan. unfold SFltb, SFcompare. by destruct (Prim2SF x). Qed.

Lemma compare_int_float_nan n : compare_int_float n nan = None.
Proof. reflexivity. Qed.

(** ** NaN through the operations of the formulas *)

Lemma stored_bind_l {A : Type} (o : outcome A) (k : A -> outcome value) :
  (forall a, o = Ok a -> stored (k a) = NaN) -> stored (o ≫= k) = NaN.
Proof. intros H. destruct o; simpl; [by apply H|done|done]. Qed.

Lemma stored_fmap_float (o : outcome float) :
  (forall f, o = Ok f -> f = nan) -> stored (VFloat <$> o) = NaN.
Proof. intros H. destruct o as [f| |]; simpl; [|done|done]. by rewrite (H f). Qed.

Lemma py_binop_nan_l op y : stored (py_binop op NaN y) = NaN.
Proof.
  destruct y as [|y|y|y]; simpl; try done.
  - apply stored_bind_l. intros fy _. apply stored_fmap_float.
    intros f. apply float_binop_nan_l.
  - apply stored_fmap_float. intros f. apply float_binop_nan_l.
Qed.

Lemma py_binop_nan_r op x : stored (py_binop op x NaN) = NaN.
Proof.
  destruct x as [|x|x|x]; simpl; try done.
  - apply stored_bind_l. intros fx _. apply stored_fmap_float.
    intros f. apply float_binop_nan_r.
  - apply stored_fmap_float. intros f. apply float_binop_nan_r.
Qed.

(** [item > nan] and [nan > item] are false, where they do not raise. *)
Lemma py_gt_nan_r item g : py_gt item NaN = Ok g -> g = false.
Proof.
  destruct item as [|x|x|x]; simpl; try done; intros [= <-]; [done|].
  apply float_ltb_nan_l.
Qed.

Lemma py_gt_nan_l item g : py_gt NaN item = Ok g -> g = false.
Proof.
  destruct item as [|x|x|x]; simpl; try done; intros [= <-]; [done|].
  apply float_ltb_nan_r.
Qed.

Lemma py_max_from_nan rest : stored (py_max_from NaN rest) = NaN.
Proof.
  induction rest as [|item rest IH]; simpl; [done|].
  apply stored_bind_l. intros g Hg. by rewrite (py_gt_nan_r _ _ Hg).
Qed.

Lemma py_min_from_nan rest : stored (py_min_from NaN rest) = NaN.
Proof.
  induction rest as [|item rest IH]; simpl; [done|].
  apply stored_bind_l. intros g Hg. unfold py_lt in Hg. by rewrite (py_gt_nan_l _ _ Hg).
Qed.

Lemma py_sum_from_cons acc item items :
  py_sum_from acc (item :: items)
  = py_binop Add acc item ≫= fun acc' => py_sum_from acc' items.
Proof. reflexivity. Qed.

Lemma py_sum_from_nan_acc items : stored (py_sum_from NaN items) = NaN.
Proof.
  induction items as [|item items IH]; [done|].
  rewrite py_sum_from_cons. apply stored_bind_l. intros acc Hacc.
  pose proof (py_binop_nan_l Add item) as H. rewrite Hacc in H. simpl in H. by rewrite H.
Qed.

Lemma py_sum_from_nan items : forall acc,
  NaN ∈ items -> stored (py_sum_from acc items) = NaN.
Proof.
  induction items as [|item items IH]; intros acc Hin; [by apply elem_of_nil in Hin|].
  rewrite py_sum_from_cons. apply stored_bind_l. intros acc' Hacc.
  apply elem_of_cons in Hin as [<-|Hin]; [|by apply IH].
  pose proof (py_binop_nan_r Add acc) as H. rewrite Hacc in H. simpl in H.
  rewrite H. apply py_sum_from_nan_acc.
Qed.

Lemma float_add_nan_l x : PrimFloat.add nan x = nan.
Proof. by apply (float_binop_nan_l Add x). Qed.

Lemma float_add_nan_r x : PrimFloat.add x nan = nan.
Proof. by apply (float_binop_nan_r Add x). Qed.

Lemma compensated_nan c : compensated nan c = nan.
Proof.
  unfold compensated.
  destruct (negb (PrimFloat.is_zero c) && PrimFloat.is_finite c); [|done].
  apply float_add_nan_l.
Qed.

Lemma py_sum_generic_nan_acc item items :
  stored (py_binop Add NaN item ≫= fun acc => py_sum_from acc items) = NaN.
Proof.
  apply stored_bind_l. intros acc Hacc.
  pose proof (py_binop_nan_l Add item) as H. rewrite Hacc in H. simpl in H.
  rewrite H. apply py_sum_from_nan_acc.
Qed.

(** A float total that is NaN stays NaN, whatever the compensation. *)
Lemma py_sum_floats_nan_acc items : forall c, stored (py_sum_floats nan c items) = NaN.
Proof.
  induction items as [|item items IH]; intros c.
  - simpl. by rewrite compensated_nan.
  - assert (Hgen : stored (py_binop Add (VFloat (compensated nan c)) item
                           ≫= fun acc => py_sum_from acc items) = NaN).
    { rewrite compensated_nan. apply py_sum_generic_nan_acc. }
    destruct item as [|n|x|s]; simpl; [done| | |done].
    + destruct (fits_long n); [|done].
      apply stored_bind_l. intros v _. rewrite float_add_nan_l. apply IH.
    + rewrite float_add_nan_l. apply IH.
Qed.

Lemma py_sum_floats_nan items : forall f c,
  NaN ∈ items -> stored (py_sum_floats f c items) = NaN.
Proof.
  induction items as [|item items IH]; intros f c Hin; [by apply elem_of_nil in Hin|].
  apply elem_of_cons in Hin as [<-|Hin].
  - simpl. rewrite float_add_nan_r. apply py_sum_floats_nan_acc.
  - assert (Hgen : stored (py_binop Add (VFloat (compensated f c)) item
                           ≫= fun acc => py_sum_from acc items) = NaN).
    { apply stored_bind_l. intros acc _. by apply py_sum_from_nan. }
    destruct item as [|n|x|s]; simpl; [done| |by apply IH|done].
    destruct (fits_long n); [|done].
    apply stored_bind_l. intros v _. by apply IH.
Qed.

Lemma py_sum_ints_nan items : forall i,
  NaN ∈ items -> stored (py_sum_ints i items) = NaN.
Proof.
  induction items as [|item items IH]; intros i Hin; [by apply elem_of_nil in Hin|].
  apply elem_of_cons in Hin as [<-|Hin].
  - change (py_sum_ints i (NaN :: items))
      with (py_binop Add (VInt i) NaN ≫= fun acc =>
              match acc with
              | VFloat f => py_sum_floats f PrimFloat.zero items
              | _ => py_sum_from acc items
              end).
    apply stored_bind_l. intros acc Hacc.
    pose proof (py_binop_nan_r Add (VInt i)) as H. rewrite Hacc in H. simpl in H.
    rewrite H. apply py_sum_floats_nan_acc.
  - assert (Hgen : stored (py_binop Add (VInt i) item ≫= fun acc =>
                     match acc with
                     | VFloat f => py_sum_floats f PrimFloat.zero items
                     | _ => py_sum_from acc items
                     end) = NaN).
    { apply stored_bind_l. intros [|n|x|s] _;
        [by apply py_sum_from_nan.. | by apply py_sum_floats_nan | by apply py_sum_from_nan]. }
    destruct item as [|b|x|s]; simpl; [done| |done|done].
    destruct (fits_long b && fits_long (i + b)); [by apply IH|done].
Qed.

(** [sum] of items one of which is NaN raises or returns NaN. *)
Lemma py_sum_nan items : NaN ∈ items -> stored (py_sum items) = NaN.
Proof. intros Hin. unfold py_sum, py_sum_start. simpl. by apply py_sum_ints_nan. Qed.

Lemma roundup_nan digits : stored (roundup NaN digits) = NaN.
Proof.
  unfold roundup. apply stored_bind_l. intros factor _.
  apply stored_bind_l. intros p Hp.
  pose proof (py_binop_nan_l Mul factor) as H. rewrite Hp in H. simpl in H. by rewrite H.
Qed.

(** A call whose first argument is NaN raises or returns NaN. *)
Lemma call_nan o rest : stored (call o (NaN :: rest)) = NaN.
Proof.
  destruct o as [|[]]; simpl; try done.
  - destruct rest as [|d [|]]; [apply roundup_nan..|done].
  - destruct rest as [|y rest]; [done|]. apply (py_max_from_nan (y :: rest)).
  - by destruct rest as [|y [|]].
  - destruct rest as [|y rest]; [done|]. apply (py_min_from_nan (y :: rest)).
  - by destruct rest.
Qed.

Lemma call_list_nan_first o rest : stored (call_list o (NaN :: rest)) = NaN.
Proof.
  destruct o as [|[]]; simpl; try done.
  - apply py_max_from_nan.
  - apply (py_sum_nan (NaN :: rest)). by left.
  - apply py_min_from_nan.
Qed.

Lemma call_list_sum_nan items :
  NaN ∈ items -> stored (call_list (O_func F_sum) items) = NaN.
Proof. apply py_sum_nan. Qed.

(** ** Absent and NaN-valued fields under a formula *)

Lemma fails_stored (o : outcome value) : fails o -> stored o = NaN.
Proof. intros H. destruct o as [v| |]; [by destruct (H v)|done|done]. Qed.

Lemma fails_bind_l {A B : Type} (o : outcome A) (k : A -> outcome B) :
  fails o -> fails (o ≫= k).
Proof. intros H b. destruct o as [a| |]; [by destruct (H a)|done|done]. Qed.

Lemma fails_bind_r {A B : Type} (o : outcome A) (k : A -> outcome B) :
  (forall a, fails (k a)) -> fails (o ≫= k).
Proof. intros H b. destruct o as [a| |]; [apply H|done|done]. Qed.

Lemma eval_all_missing r es x :
  Forall (fun e => x ∈ reads e -> r !! x = None -> fails (eval r e)) es ->
  x ∈ flat_map reads es -> r !! x = None -> fails (eval_all r es).
Proof.
  induction 1 as [|e es He _ IH]; simpl; intros Hx Hr; [by apply elem_of_nil in Hx|].
  apply elem_of_app in Hx as [Hx|Hx].
  - apply fails_bind_l. by apply He.
  - apply fails_bind_r. intros v. apply fails_bind_l. by apply IH.
Qed.

(** A formula that reads an absent field does not return: every
    sub-expression is evaluated, and the subscript raises [KeyError]. *)
Lemma eval_missing r e x : x ∈ reads e -> r !! x = None -> fails (eval r e).
Proof.
  induction e as [n|f|name key|op a b IHa IHb|fn args IH|fn items IH]
    using expr_nested_ind; intros Hx Hr; simpl in Hx.
  - by apply elem_of_nil in Hx.
  - by apply elem_of_nil in Hx.
  - apply list_elem_of_singleton in Hx as ->. simpl. rewrite Hr.
    by destruct (resolve name) as [[|g]|].
  - rewrite eval_BinOp. apply elem_of_app in Hx as [Hx|Hx].
    + apply fails_bind_l. by apply IHa.
    + apply fails_bind_r. intros v. apply fails_bind_l. by apply IHb.
  - rewrite eval_Call. destruct (resolve fn); [|done].
    apply fails_bind_l. by apply (eval_all_missing r args x).
  - rewrite eval_CallList. destruct (resolve fn); [|done].
    apply fails_bind_l. by apply (eval_all_missing r items x).
Qed.

Lemma stored_Ok (o : outcome value) v : stored o = NaN -> o = Ok v -> v = NaN.
Proof. by intros H ->. Qed.

(** Where all items return and one of them has a poisoned key in a strict
    position, NaN is among the values. *)
Lemma eval_all_poisoned r es k vs :
  Forall (fun e => k ∈ nan_reads e -> stored (eval r e) = NaN) es ->
  k ∈ flat_map nan_reads es -> eval_all r es = Ok vs -> NaN ∈ vs.
Proof.
  intros Hes. revert vs. induction Hes as [|e es He _ IH]; simpl; intros vs Hk Hvs;
    [by apply elem_of_nil in Hk|].
  destruct (eval r e) as [v| |] eqn:Hv; simpl in Hvs; [|done|done].
  destruct (eval_all r es) as [vs'| |]; simpl in Hvs; [|done|done].
  injection Hvs as <-. apply elem_of_app in Hk as [Hk|Hk].
  - rewrite (stored_Ok _ v (He Hk) eq_refl). by left.
  - right. by apply IH.
Qed.

Lemma eval_all_poisoned_first r e es k vs :
  (k ∈ nan_reads e -> stored (eval r e) = NaN) ->
  k ∈ nan_reads e -> eval_all r (e :: es) = Ok vs -> exists vs', vs = NaN :: vs'.
Proof.
  simpl. intros He Hk Hvs.
  destruct (eval r e) as [v| |] eqn:Hv; simpl in Hvs; [|done|done].
  destruct (eval_all r es) as [vs'| |]; simpl in Hvs; [|done|done].
  injection Hvs as <-. exists vs'. by rewrite (stored_Ok _ v (He Hk) eq_refl).
Qed.

(** A formula that has a poisoned field in a NaN-strict position raises or
    returns NaN. *)
Lemma eval_poisoned r e k :
  k ∈ nan_reads e -> poisoned r k -> stored (eval r e) = NaN.
Proof.
  intros Hk Hr. revert Hk.
  induction e as [n|f|name key|op a b IHa IHb|fn args IH|fn items IH]
    using expr_nested_ind; intros Hk.
  - by apply elem_of_nil in Hk.
  - by apply elem_of_nil in Hk.
  - apply list_elem_of_singleton in Hk as ->. simpl.
    destruct (resolve name) as [[|g]|]; [|done|done]. by destruct Hr as [-> | ->].
  - rewrite eval_BinOp. simpl in Hk. apply elem_of_app in Hk as [Hk|Hk].
    + destruct (eval r a) as [va| |] eqn:Ha; simpl; [|done|done].
      rewrite (stored_Ok _ va (IHa Hk) eq_refl).
      destruct (eval r b) as [vb| |]; simpl; [|done|done]. apply py_binop_nan_l.
    + destruct (eval r a) as [va| |]; simpl; [|done|done].
      destruct (eval r b) as [vb| |] eqn:Hb; simpl; [|done|done].
      rewrite (stored_Ok _ vb (IHb Hk) eq_refl). apply py_binop_nan_r.
  - rewrite eval_Call. destruct (resolve fn) as [o|]; [|done].
    destruct args as [|a args]; [by apply elem_of_nil in Hk|]. simpl in Hk.
    apply Forall_cons in IH as [Ha _].
    destruct (eval_all r (a :: args)) as [vs| |] eqn:Hvs; [|done|done].
    destruct (eval_all_poisoned_first r a args k vs Ha Hk Hvs) as [vs' ->].
    apply call_nan.
  - rewrite eval_CallList. simpl in Hk. destruct (resolve fn) as [o|]; [|done].
    destruct (eval_all r items) as [vs| |] eqn:Hvs; [|done|done].
    assert (Hfirst : forall a items', items = a :: items' -> k ∈ nan_reads a ->
                       stored (Ok vs ≫= call_list o) = NaN).
    { intros a items' -> Hka. apply Forall_cons in IH as [Ha _].
      destruct (eval_all_poisoned_first r a items' k vs Ha Hka Hvs) as [vs' ->].
      apply call_list_nan_first. }
    destruct o as [|[]];
      try (destruct items as [|a items']; [by apply elem_of_nil in Hk | by eapply Hfirst]).
    apply call_list_sum_nan. by apply (eval_all_poisoned r items k).
Qed.

(** ** NaN propagation through the registry *)

Lemma existsb_elem_of (l bad : list string) :
  existsb (fun x => bool_decide (x ∈ bad)) l = true -> exists x, x ∈ l /\ x ∈ bad.
Proof.
  intros (x & Hx & Hbad)%existsb_exists. exists x.
  split; [by apply list_elem_of_In | by apply bool_decide_eq_true in Hbad].
Qed.

(** Running the registry unlocked on a record in which the fields [absent]
    are absent and the fields [nans] hold NaN leaves NaN under every key
    reached through NaN-strict positions. *)
Lemma run_downstream formulas : forall absent nans r,
  NoDup (registry_keys formulas) ->
  (forall x, x ∈ absent ++ nans -> x ∉ registry_keys formulas) ->
  (forall x, x ∈ absent -> r !! x = None) ->
  (forall x, x ∈ nans -> r !! x = Some NaN) ->
  forall k, k ∈ downstream nan_reads formulas absent nans ->
            run formulas ∅ r !! k = Some NaN.
Proof.
  induction formulas as [|[key e] rest IH]; intros absent nans r Hnd Hout Habs Hnan k Hk.
  { by apply Hnan. }
  apply NoDup_cons in Hnd as [Hkey Hnd]. rewrite run_cons.
  assert (Hstep : step ∅ r (key, e) = <[key := stored (eval r e)]> r).
  { unfold step. simpl. by destruct (decide (key ∈ (∅ : gset string))). }
  rewrite Hstep.
  assert (Hne : forall x, x ∈ absent ++ nans -> key <> x).
  { intros x Hx ->. apply (Hout x Hx). by left. }
  assert (Habs' : forall x, x ∈ absent -> <[key := stored (eval r e)]> r !! x = None).
  { intros x Hx. rewrite lookup_insert_ne; [by apply Habs|].
    apply Hne, elem_of_app. by left. }
  assert (Hnan' : forall x, x ∈ nans -> <[key := stored (eval r e)]> r !! x = Some NaN).
  { intros x Hx. rewrite lookup_insert_ne; [by apply Hnan|].
    apply Hne, elem_of_app. by right. }
  assert (Hout' : forall x, x ∈ absent ++ nans -> x ∉ registry_keys rest).
  { intros x Hx Hin. apply (Hout x Hx). by right. }
  simpl in Hk.
  destruct (existsb (fun x => bool_decide (x ∈ absent)) (reads e)
            || existsb (fun x => bool_decide (x ∈ nans)) (nan_reads e)) eqn:Hreach.
  - assert (Hval : stored (eval r e) = NaN).
    { apply orb_prop in Hreach as [H|H]; apply existsb_elem_of in H as (x & Hx & Hbad).
      - apply fails_stored. apply (eval_missing r e x Hx). by apply Habs.
      - apply (eval_poisoned r e x Hx). right. by apply Hnan. }
    apply (IH absent (key :: nans)); try done.
    + intros x Hx Hin. apply elem_of_app in Hx as [Hx|Hx].
      * apply (Hout' x); [apply elem_of_app; by left | done].
      * apply elem_of_cons in Hx as [->|Hx]; [done|].
        apply (Hout' x); [apply elem_of_app; by right | done].
    + intros x [->|Hx]%elem_of_cons; [|by apply Hnan'].
      by rewrite lookup_insert_eq, Hval.
  - by apply (IH absent nans).
Qed.

Lemma strict_fields_covered :
  Forall (fun b => Forall (fun k => k ∈ downstream nan_reads FORMULAS [b] [])
                     (downstream reads FORMULAS [b] []))
    strictly_read_base_fields.
Proof. by_evaluation. Qed.

Lemma nan_strict_fields_covered :
  Forall (fun b => Forall (fun k => k ∈ downstream nan_reads FORMULAS [] [b])
                     (downstream reads FORMULAS [b] []))
    nan_strict_base_fields.
Proof. by_evaluation. Qed.

Lemma other_fields_not_covered :
  Forall (fun b =>
            (b ∈ strictly_read_base_fields \/
             Exists (fun k => k ∉ downstream nan_reads FORMULAS [b] [])
               (downstream reads FORMULAS [b] [])) /\
            (b ∈ nan_strict_base_fields \/
             Exists (fun k => k ∉ downstream nan_reads FORMULAS [] [b])
               (downstream reads FORMULAS [b] [])))
    BASE_INPUT_FIELDS.
Proof. by_evaluation. Qed.

(** A NaN is not passed on through a later argument of [max]:
    [per_day_ndx] requires the base input field [in_non_docs] (through
    [in_per_day_non_docs]), yet with [in_non_docs] removed from Scenario A
    the field [in_per_day_non_docs] is NaN while [per_day_ndx = max(8.0, nan)]
    is 8.0, and both staffing totals are numbers. *)
Lemma nan_dropped_by_max :
  "in_non_docs"%string ∈ BASE_INPUT_FIELDS /\
  "per_day_ndx"%string ∈ downstream reads FORMULAS ["in_non_docs"%string] [] /\
  "manpower_with_sorter"%string ∈ downstream reads FORMULAS ["in_non_docs"%string] [] /\
  exists r', compute_derived (delete "in_non_docs"%string scenario_A) None = Ok r' /\
    r' !! "in_per_day_non_docs"%string = Some NaN /\
    r' !! "per_day_ndx"%string = Some (VFloat 8%float) /\
    r' !! "manpower_with_sorter"%string = Some (VFloat 9%float) /\
    is_nan_value (VFloat 8%float) = false /\
    is_nan_value (VFloat 9%float) = false.
Proof.
  split; [by_evaluation|]. split; [by_evaluation|]. split; [by_evaluation|].
  eexists. split; [apply compute_derived_run|]. vm_compute. done.
Qed.

(** X3 (the subject of C4): removing a base input field [b] from the record
    and evaluating unlocked leaves NaN, without raising, under every registry
    key [k] reached from [b] through NaN-strict positions: [k]'s formula
    reads [b] itself (anywhere), or reads, as an operand of [+ - * /], as the
    first argument of [roundup] or [max] or as an item of a summed list, a
    field that is NaN for the same reason. When [b] is not removed but holds
    NaN, the same holds of the keys reached from [b] through NaN-strict
    positions, the read of [b] included. For the ten fields
    [strictly_read_base_fields] the removal reaches in this way every key
    that depends on the field; when the field holds NaN this is so for the
    eight fields [nan_strict_base_fields]. Each other base input field has a
    dependent key that is not reached in this way: on every path to it a
    later argument of [max] is passed. *)
Theorem nan_propagation (r : gmap string value) (b k : string) :
  b ∈ BASE_INPUT_FIELDS ->
  (k ∈ downstream nan_reads FORMULAS [b] [] ->
   exists r', compute_derived (delete b r) None = Ok r' /\ r' !! k = Some NaN) /\
  (k ∈ downstream nan_reads FORMULAS [] [b] ->
   exists r', compute_derived (<[b := NaN]> r) None = Ok r' /\ r' !! k = Some NaN) /\
  (b ∈ strictly_read_base_fields ->
   k ∈ downstream reads FORMULAS [b] [] ->
   k ∈ downstream nan_reads FORMULAS [b] []) /\
  (b ∈ nan_strict_base_fields ->
   k ∈ downstream reads FORMULAS [b] [] ->
   k ∈ downstream nan_reads FORMULAS [] [b]) /\
  (b ∉ strictly_read_base_fields ->
   exists k', k' ∈ downstream reads FORMULAS [b] [] /\
              k' ∉ downstream nan_reads FORMULAS [b] []) /\
  (b ∉ nan_strict_base_fields ->
   exists k', k' ∈ downstream reads FORMULAS [b] [] /\
              k' ∉ downstream nan_reads FORMULAS [] [b]).
Proof.
  intros Hb. pose proof (base_field_not_registry_key b Hb) as Hnotkey.
  split; [|split; [|split; [|split; [|split]]]].
  - intros Hk. eexists. split; [apply compute_derived_run|].
    apply (run_downstream FORMULAS [b] []); try done.
    + apply FORMULAS_NoDup.
    + by intros x [->%list_elem_of_singleton|?%elem_of_nil]%elem_of_app.
    + intros x ->%list_elem_of_singleton. apply lookup_delete_eq.
    + by intros x ?%elem_of_nil.
  - intros Hk. eexists. split; [apply compute_derived_run|].
    apply (run_downstream FORMULAS [] [b]); try done.
    + apply FORMULAS_NoDup.
    + by intros x [?%elem_of_nil | ->%list_elem_of_singleton]%elem_of_app.
    + by intros x ?%elem_of_nil.
    + intros x ->%list_elem_of_singleton. apply lookup_insert_eq.
  - intros Hstrict Hk. pose proof strict_fields_covered as H.
    rewrite Forall_forall in H. specialize (H b Hstrict).
    rewrite Forall_forall in H. by apply H.
  - intros Hstrict Hk. pose proof nan_strict_fields_covered as H.
    rewrite Forall_forall in H. specialize (H b Hstrict).
    rewrite Forall_forall in H. by apply H.
  - intros Hnot. pose proof other_fields_not_covered as H.
    rewrite Forall_forall in H. destruct (H b Hb) as [[?|Hex] _]; [done|].
    by apply Exists_exists in Hex.
  - intros Hnot. pose proof other_fields_not_covered as H.
    rewrite Forall_forall in H. destruct (H b Hb) as [_ [?|Hex]]; [done|].
    by apply Exists_exists in Hex.
Qed.

Lemma nan_propagation_witness :
  exists r', compute_derived (delete "out_non_docs"%string scenario_A) None = Ok r'
             /\ r' !! "manpower_with_sorter"%string = Some NaN.
Proof.
  destruct (nan_propagation scenario_A "out_non_docs" "manpower_with_sorter")
    as (Hremoved & _ & Hall & _).
  - by_evaluation.
  - apply Hremoved. apply Hall; by_evaluation.
Defined.

(** ** The evaluated record against the formulas *)

(** X5: in the record [compute_derived] returns, every registry key that is
    not locked holds what its formula evaluates to on the returned record
    itself, or NaN where the formula raises on it: the derived fields are
    consistent with one another and with the inputs at the end of the pass,
    not only at the moment each one was computed. *)
Theorem evaluated_record_consistent
    (r : gmap string value) (locked_keys : option (list string)) :
  exists r', compute_derived r locked_keys = Ok r' /\
    forall k e, (k, e) ∈ FORMULAS -> k ∉ locked_set locked_keys ->
      (exists v, eval r' e = Ok v /\ r' !! k = Some v) \/
      (exists x, eval r' e = Raise x /\ r' !! k = Some NaN).
Proof.
  exists (run FORMULAS (locked_set locked_keys) r).
  split; [apply compute_derived_run|]. intros k e Hin Hk.
  rewrite (compute_derived_fixed r locked_keys k e Hin Hk).
  assert (Hfrag : in_fragment e = true).
  { pose proof FORMULAS_in_fragment as H. unfold registry_in_fragment in H.
    rewrite forallb_forall in H. apply (H (k, e)). by apply list_elem_of_In. }
  pose proof (eval_modelled (run FORMULAS (locked_set locked_keys) r) e Hfrag) as Hm.
  destruct (eval (run FORMULAS (locked_set locked_keys) r) e) as [v|x|];
    [left; by exists v | right; by exists x | done].
Qed.

(** ** No missing field when the base inputs are there *)

Lemma run_keeps_present formulas locked x :
  forall r, is_Some (r !! x) -> is_Some (run formulas locked r !! x).
Proof.
  induction formulas as [|[key e] rest IH]; intros r Hx; [done|].
  rewrite run_cons. apply IH. unfold step. simpl.
  destruct (decide (key ∈ locked)); [done|].
  destruct (decide (key = x)) as [->|Hne].
  - rewrite lookup_insert_eq. by eexists.
  - by rewrite lookup_insert_ne.
Qed.

Lemma reads_available_split pre : forall avail k e post,
  reads_available avail (pre ++ (k, e) :: post) = true ->
  forall x, x ∈ reads e -> x ∈ avail \/ x ∈ registry_keys pre.
Proof.
  induction pre as [|[k' e'] pre IH]; intros avail k e post Hav x Hx; simpl in Hav.
  - apply andb_prop in Hav as [Hav _]. rewrite forallb_forall in Hav.
    left. apply (bool_decide_unpack _). apply Is_true_true, Hav. by apply list_elem_of_In.
  - apply andb_prop in Hav as [_ Hav].
    destruct (IH _ _ _ _ Hav x Hx) as [[->|Hin]%elem_of_cons|Hin].
    + right. by left.
    + by left.
    + right. by right.
Qed.

Lemma FORMULAS_reads_available : reads_available BASE_INPUT_FIELDS FORMULAS = true.
Proof. vm_compute. reflexivity. Qed.

(** X6: the registry refers only to base input fields and to keys declared
    strictly earlier. So when the record brings a value for every base input
    field, and for every registry key the caller locks, no formula ever reads
    a missing field: at the moment an entry is evaluated, each field its
    formula reads is present in the record. *)
Theorem formulas_read_present_fields
    (r : gmap string value) (locked_keys : option (list string)) :
  (forall b, b ∈ BASE_INPUT_FIELDS -> is_Some (r !! b)) ->
  (forall k, k ∈ locked_set locked_keys -> k ∈ registry_keys FORMULAS ->
             is_Some (r !! k)) ->
  forall pre k e post,
    FORMULAS = pre ++ (k, e) :: post ->
    exists r_pre,
      eval_formulas pre (locked_set locked_keys) r = Ok r_pre /\
      forall x, x ∈ reads e -> is_Some (r_pre !! x).
Proof.
  intros Hbase Hlocked pre k e post Heq.
  exists (run pre (locked_set locked_keys) r). split.
  { apply eval_formulas_run. by apply FORMULAS_split_fragment in Heq as (? & _). }
  intros x Hx. pose proof FORMULAS_reads_available as Hav. rewrite Heq in Hav.
  destruct (reads_available_split pre _ _ _ _ Hav x Hx) as [Hb|Hpre].
  - apply run_keeps_present. by apply Hbase.
  - destruct (decide (x ∈ locked_set locked_keys)) as [Hl|Hl].
    + apply run_keeps_present, Hlocked; [done|].
      rewrite Heq. unfold registry_keys. rewrite fmap_app. apply elem_of_app. by left.
    + apply list_elem_of_fmap in Hpre as ([x' e'] & -> & Hin).
      apply list_elem_of_split in Hin as (pre1 & pre2 & ->).
      change ((x', e').1) with x' in *.
      rewrite run_lookup; [by eexists| |done].
      pose proof FORMULAS_NoDup as Hnd. rewrite Heq in Hnd.
      unfold registry_keys in Hnd. rewrite fmap_app in Hnd.
      by apply NoDup_app in Hnd as (Hnd & _).
Qed.

Lemma formulas_read_present_fields_witness :
  exists r_pre,
    eval_formulas [] (locked_set None) scenario_A = Ok r_pre /\
    forall x, x ∈ reads (row["in_ndx_vol_wt"] / row["in_ndx_out_vol"])%py ->
              is_Some (r_pre !! x).
Proof.
  apply (formulas_read_present_fields scenario_A None) with
    (pre := []) (k := "in_avg_wt_cn"%string) (post := tail FORMULAS).
  - apply Forall_forall.
    apply (bool_decide_unpack (Forall (fun b => is_Some (scenario_A !! b))
                                 BASE_INPUT_FIELDS)).
    vm_compute. exact I.
  - intros k Hk. destruct (not_elem_of_empty (C:=gset string) k Hk).
  - reflexivity.
Defined.

(** * Rounding up

    [roundup] at 0 digits multiplies by [1], takes the ceiling as an [int]
    and divides by [1]: the lemmas below show that no step loses
    precision. *)

Lemma digits2_pos_iter_xO p : forall m,
  Zpos (digits2_pos (Pos.iter xO m p)) = Zpos (digits2_pos m) + Zpos p.
Proof.
  induction p as [p IH|p IH|]; intros m; simpl.
  - rewrite Pos2Z.inj_succ, !IH. lia.
  - rewrite !IH. lia.
  - lia.
Qed.

Lemma iter_pos_shr_1_exact p : forall m,
  SpecFloat.iter_pos shr_1 p (Build_shr_record (Zpos (Pos.iter xO m p)) false false)
  = Build_shr_record (Zpos m) false false.
Proof.
  induction p as [p IH|p IH|]; intros m; simpl.
  - by rewrite !IH.
  - by rewrite !IH.
  - done.
Qed.

Lemma Zpos_iter_xO p m : Zpos (Pos.iter xO m p) = Zpos m * 2 ^ Zpos p.
Proof.
  revert m. induction p as [p IH|p IH|]; intros m; simpl Pos.iter.
  - rewrite Pos2Z.inj_xO, !IH.
    replace (Zpos p~1) with (Zpos p + Zpos p + 1) by lia.
    rewrite !Z.pow_add_r by lia. lia.
  - rewrite !IH. replace (Zpos p~0) with (Zpos p + Zpos p) by lia.
    rewrite !Z.pow_add_r by lia. lia.
  - lia.
Qed.

Lemma canonical_fexp m e :
  canonical_mantissa prec emax m e = true ->
  fexp prec emax (Zpos (digits2_pos m) + e) = e.
Proof. unfold canonical_mantissa. apply Z.eqb_eq. Qed.

(** A mantissa that is a valid one shifted left rounds back to it. *)
Lemma binary_round_aux_shifted s m e p :
  bounded prec emax m e = true ->
  binary_round_aux prec emax s (Zpos (Pos.iter xO m p)) (e - Zpos p) loc_Exact
  = S754_finite s m e.
Proof.
  intros [Hcan Hmax]%andb_prop. apply canonical_fexp in Hcan.
  unfold binary_round_aux, shr_fexp. unfold Zdigits2 at 1.
  rewrite digits2_pos_iter_xO.
  replace (Zpos (digits2_pos m) + Zpos p + (e - Zpos p)) with (Zpos (digits2_pos m) + e) by lia.
  rewrite Hcan. replace (e - (e - Zpos p)) with (Zpos p) by lia.
  unfold shr_record_of_loc, shr. rewrite iter_pos_shr_1_exact.
  replace (e - Zpos p + Zpos p) with e by lia.
  cbn [shr_m loc_of_shr_record round_nearest_even Zdigits2].
  rewrite Hcan, Z.sub_diag. cbn [shr_m]. by rewrite Hmax.
Qed.

Lemma binary_round_aux_exact s m e :
  bounded prec emax m e = true ->
  binary_round_aux prec emax s (Zpos m) e loc_Exact = S754_finite s m e.
Proof.
  intros [Hcan Hmax]%andb_prop. apply canonical_fexp in Hcan.
  unfold binary_round_aux, shr_fexp. cbn [Zdigits2].
  rewrite Hcan, Z.sub_diag. cbn.
  rewrite Hcan, Z.sub_diag. cbn. by rewrite Hmax.
Qed.

Lemma Prim2SF_one : Prim2SF PrimFloat.one = S754_finite false 4503599627370496 (-52).
Proof. reflexivity. Qed.

(** [x * 1.0] is [x]. *)
Lemma float_mul_one x : PrimFloat.mul x PrimFloat.one = x.
Proof.
  apply Prim2SF_inj. rewrite mul_spec, Prim2SF_one.
  pose proof (Prim2SF_valid x) as Hvalid.
  destruct (Prim2SF x) as [s|s| |s m e]; unfold SF64mul, SFmul;
    cbn [xorb]; rewrite ?xorb_false_r; try reflexivity.
  replace (m * 4503599627370496)%positive with (Pos.iter xO m 52)
    by (rewrite Pos.mul_comm; reflexivity).
  change (e + -52) with (e - 52). by apply binary_round_aux_shifted.
Qed.

Lemma fexp_eq x : fexp prec emax x = Z.max (x - 53) (-1074).
Proof. reflexivity. Qed.

Lemma digits2_pos_bounds m :
  2 ^ (Zpos (digits2_pos m) - 1) <= Zpos m < 2 ^ Zpos (digits2_pos m).
Proof.
  induction m as [m IH|m IH|]; simpl digits2_pos; [| |simpl; lia].
  - rewrite Pos2Z.inj_succ. replace (Z.succ (Zpos (digits2_pos m)) - 1) with (Z.succ (Zpos (digits2_pos m) - 1)) by lia.
    rewrite !Z.pow_succ_r by lia. lia.
  - rewrite Pos2Z.inj_succ. replace (Z.succ (Zpos (digits2_pos m)) - 1) with (Z.succ (Zpos (digits2_pos m) - 1)) by lia.
    rewrite !Z.pow_succ_r by lia. lia.
Qed.

Lemma digits2_pos_unique m d :
  2 ^ (d - 1) <= Zpos m < 2 ^ d -> Zpos (digits2_pos m) = d.
Proof.
  intros [Hlo Hhi]. pose proof (digits2_pos_bounds m) as [Hlo' Hhi'].
  destruct (Z.lt_trichotomy (Zpos (digits2_pos m)) d) as [Hlt|[Heq|Hgt]]; [|done|].
  - assert (2 ^ Zpos (digits2_pos m) <= 2 ^ (d - 1)) by (apply Z.pow_le_mono_r; lia). lia.
  - assert (0 <= d).
    { destruct (Z.le_gt_cases 0 d) as [|Hneg]; [done|].
      rewrite (Z.pow_neg_r 2 d) in Hhi by lia. lia. }
    assert (2 ^ d <= 2 ^ (Zpos (digits2_pos m) - 1)) by (apply Z.pow_le_mono_r; lia). lia.
Qed.

Lemma digits2_pos_scaled m n k :
  0 <= k -> Zpos m = Zpos n * 2 ^ k ->
  Zpos (digits2_pos m) = Zpos (digits2_pos n) + k.
Proof.
  intros Hk Hm. apply digits2_pos_unique. rewrite Hm.
  pose proof (digits2_pos_bounds n) as [Hlo Hhi].
  replace (Zpos (digits2_pos n) + k - 1) with (Zpos (digits2_pos n) - 1 + k) by lia.
  rewrite !Z.pow_add_r by lia.
  assert (0 < 2 ^ k) by (apply Z.pow_pos_nonneg; lia). nia.
Qed.

Lemma binary_round_aux_scaled s M E mz ez :
  bounded prec emax M E = true -> ez <= E -> mz = Zpos M * 2 ^ (E - ez) ->
  binary_round_aux prec emax s mz ez loc_Exact = S754_finite s M E.
Proof.
  intros Hb Hle ->. destruct (E - ez) as [|p|p] eqn:Hd; [| |lia].
  - assert (ez = E) as -> by lia. rewrite Z.pow_0_r, Z.mul_1_r.
    by apply binary_round_aux_exact.
  - assert (ez = E - Zpos p) as -> by lia. rewrite <- Zpos_iter_xO.
    by apply binary_round_aux_shifted.
Qed.

Lemma Z_div_eucl_1 a : Z.div_eucl a 1 = (a, 0).
Proof.
  pose proof (Z.div_1_r a) as Hq. pose proof (Z.mod_1_r a) as Hr.
  unfold Z.div, Z.modulo in *. destruct (Z.div_eucl a 1) as [q r].
  simpl in *. congruence.
Qed.

Lemma SFdiv_core_by_one N :
  let e' := Z.min (Z.max (Zpos (digits2_pos N) - 54) (-1074)) 0 in
  SFdiv_core_binary prec emax (Zpos N) 0 1 0 = (Zpos N * 2 ^ (- e'), e', loc_Exact).
Proof.
  intros e'. unfold SFdiv_core_binary. cbn [Zdigits2 digits2_pos].
  rewrite fexp_eq.
  replace (Zpos (digits2_pos N) + 0 - (1 + 0) - 53) with (Zpos (digits2_pos N) - 54) by lia.
  change (0 - 0) with 0. fold e'. change (0 - e') with (- e').
  assert (He : e' <= 0) by (subst e'; lia).
  destruct (- e') as [|p|p] eqn:Hs; [| |lia].
  - rewrite Z_div_eucl_1, Z.pow_0_r, Z.mul_1_r. assert (e' = 0) as -> by lia. reflexivity.
  - rewrite Z.shiftl_mul_pow2 by lia. rewrite Z_div_eucl_1. reflexivity.
Qed.

Lemma bounded_digits M E :
  bounded prec emax M E = true -> -1074 < E -> Zpos (digits2_pos M) = 53.
Proof.
  intros [Hcan _]%andb_prop HE. apply canonical_fexp in Hcan.
  rewrite fexp_eq in Hcan. lia.
Qed.

(** An integer that a float holds exactly, divided by [1], is that float. *)
Lemma int_truediv_one s N M E :
  bounded prec emax M E = true -> -1074 < E ->
  (0 <= E -> Zpos N = Zpos M * 2 ^ E) ->
  (E <= 0 -> Zpos M = Zpos N * 2 ^ (- E)) ->
  int_truediv (cond_Zopp s (Zpos N)) 1 = Ok (SF2Prim (S754_finite s M E)).
Proof.
  intros Hb HE Hpos Hneg. pose proof (bounded_digits _ _ Hb HE) as HdM.
  assert (HdN : Zpos (digits2_pos N) = 53 + E).
  { destruct (Z.le_gt_cases 0 E) as [H0|H0].
    - rewrite (digits2_pos_scaled N M E) by auto. lia.
    - pose proof (digits2_pos_scaled M N (- E) ltac:(lia) ltac:(apply Hneg; lia)). lia. }
  unfold int_truediv.
  replace (1 =? 0) with false by reflexivity.
  replace (cond_Zopp s (Zpos N) =? 0) with false by (by destruct s).
  replace (Z.abs (cond_Zopp s (Zpos N))) with (Zpos N) by (by destruct s).
  replace (xorb (cond_Zopp s (Zpos N) <? 0) (1 <? 0)) with s by (by destruct s).
  change (Z.abs 1) with 1.
  rewrite (SFdiv_core_by_one N). cbv zeta. rewrite HdN.
  rewrite (binary_round_aux_scaled s M E); [reflexivity|done| |].
  - lia.
  - destruct (Z.le_gt_cases E 0) as [H0|H0].
    + replace (Z.min (Z.max (53 + E - 54) (-1074)) 0) with (E - 1) by lia.
      replace (- (E - 1)) with (- E + 1) by lia.
      replace (E - (E - 1)) with 1 by lia.
      rewrite Z.pow_add_r by lia. rewrite (Hneg H0). lia.
    + replace (Z.min (Z.max (53 + E - 54) (-1074)) 0) with 0 by lia.
      rewrite (Hpos ltac:(lia)). simpl (- 0). rewrite Z.sub_0_r. lia.
Qed.

Lemma compare_int_float_exact s N M E :
  bounded prec emax M E = true ->
  (0 <= E -> Zpos N = Zpos M * 2 ^ E) ->
  (E <= 0 -> Zpos M = Zpos N * 2 ^ (- E)) ->
  compare_int_float (cond_Zopp s (Zpos N)) (SF2Prim (S754_finite s M E)) = Some Eq.
Proof.
  intros Hb Hpos Hneg. unfold compare_int_float.
  rewrite Prim2SF_SF2Prim by exact Hb. f_equal.
  destruct (0 <=? E) eqn:HE; apply Z.compare_eq_iff.
  - apply Z.leb_le in HE. specialize (Hpos HE). destruct s; simpl; lia.
  - apply Z.leb_gt in HE. specialize (Hneg ltac:(lia)). destruct s; simpl; lia.
Qed.

(** Every non-zero integer below [2^53] in magnitude divides by [1] into the
    float that holds it exactly. *)
Lemma int_truediv_one_small n :
  n <> 0 -> Z.abs n < 2 ^ 53 ->
  exists r, int_truediv n 1 = Ok r /\ compare_int_float n r = Some Eq.
Proof.
  intros Hn Hlt.
  remember (Z.to_pos (Z.abs n)) as N eqn:HN.
  assert (HNz : Zpos N = Z.abs n) by (subst N; apply Z2Pos.id; lia).
  assert (Hn' : n = cond_Zopp (n <? 0) (Zpos N)).
  { destruct (n <? 0) eqn:Hs; simpl cond_Zopp; [apply Z.ltb_lt in Hs|apply Z.ltb_ge in Hs]; lia. }
  pose proof (digits2_pos_bounds N) as [Hlo Hhi].
  remember (Zpos (digits2_pos N)) as d eqn:Hd.
  assert (Hd53 : 1 <= d <= 53).
  { split; [lia|]. destruct (Z.le_gt_cases d 53) as [|Hgt]; [done|].
    assert (2 ^ 53 <= 2 ^ (d - 1)) by (apply Z.pow_le_mono_r; lia). lia. }
  assert (Hp : 0 < 2 ^ (53 - d)) by (apply Z.pow_pos_nonneg; lia).
  remember (Z.to_pos (Zpos N * 2 ^ (53 - d))) as M eqn:HM.
  assert (HMz : Zpos M = Zpos N * 2 ^ (53 - d)) by (subst M; apply Z2Pos.id; lia).
  assert (HdM : Zpos (digits2_pos M) = 53).
  { rewrite (digits2_pos_scaled M N (53 - d)) by (done || lia). lia. }
  assert (Hb : bounded prec emax M (d - 53) = true).
  { unfold bounded, canonical_mantissa. rewrite fexp_eq, HdM.
    apply andb_true_intro; split; [apply Z.eqb_eq|apply Z.leb_le]; [lia|].
    change (emax - prec) with 971. lia. }
  assert (Hpos : 0 <= d - 53 -> Zpos N = Zpos M * 2 ^ (d - 53)).
  { intros ?. assert (d = 53) as Hd' by lia. rewrite HMz, Hd'. simpl. lia. }
  assert (Hneg : d - 53 <= 0 -> Zpos M = Zpos N * 2 ^ (- (d - 53))).
  { intros _. rewrite HMz. f_equal. f_equal. lia. }
  exists (SF2Prim (S754_finite (n <? 0) M (d - 53))). rewrite Hn' at 1 3. split.
  - apply int_truediv_one; (done || lia).
  - by apply compare_int_float_exact.
Qed.

(** [math.ceil] returns the least integer that is not below its argument. *)
Lemma float_ceil_least x n :
  float_ceil x = Ok n ->
  compare_int_float (n - 1) x = Some Lt /\
  (compare_int_float n x = Some Eq \/ compare_int_float n x = Some Gt).
Proof.
  unfold float_ceil, compare_int_float.
  destruct (Prim2SF x) as [s|s| |s m e]; try discriminate.
  - intros [= <-]. split; [reflexivity|by left].
  - intros [= <-]. destruct (0 <=? e) eqn:He.
    + split; [f_equal; apply Z.compare_lt_iff; lia|left; f_equal; apply Z.compare_eq_iff; lia].
    + apply Z.leb_gt in He.
      assert (Hp : 0 < 2 ^ (- e)) by (apply Z.pow_pos_nonneg; lia).
      pose proof (Z.div_mod (- cond_Zopp s (Zpos m)) (2 ^ (- e)) ltac:(lia)) as Hdm.
      pose proof (Z.mod_pos_bound (- cond_Zopp s (Zpos m)) (2 ^ (- e)) Hp) as Hr.
      remember (- cond_Zopp s (Zpos m) / 2 ^ (- e)) as q.
      remember (- cond_Zopp s (Zpos m) mod 2 ^ (- e)) as t.
      remember (2 ^ (- e)) as b.
      split; [f_equal; apply Z.compare_lt_iff; nia|].
      destruct (Z.eq_dec t 0) as [->|Ht]; [left|right]; f_equal;
        [apply Z.compare_eq_iff|apply Z.compare_gt_iff]; nia.
Qed.

(** An integer a float holds exactly is the ceiling of that float. *)
Lemma float_ceil_exact n r : compare_int_float n r = Some Eq -> float_ceil r = Ok n.
Proof.
  unfold float_ceil, compare_int_float.
  destruct (Prim2SF r) as [s|s| |s m e]; try discriminate.
  - intros [= ->%Z.compare_eq_iff]. done.
  - by destruct s.
  - intros [= H]. f_equal. destruct (0 <=? e) eqn:He.
    + apply Z.compare_eq_iff in H. done.
    + apply Z.compare_eq_iff in H. apply Z.leb_gt in He.
      assert (Hp : 0 < 2 ^ (- e)) by (apply Z.pow_pos_nonneg; lia).
      rewrite <- H. rewrite <- Z.mul_opp_l, Z.div_mul by lia. lia.
Qed.

Lemma bounded_mantissa m e :
  bounded prec emax m e = true -> Zpos m < 2 ^ 53.
Proof.
  intros [Hcan _]%andb_prop. apply canonical_fexp in Hcan. rewrite fexp_eq in Hcan.
  pose proof (digits2_pos_bounds m) as [_ Hhi].
  assert (2 ^ Zpos (digits2_pos m) <= 2 ^ 53) by (apply Z.pow_le_mono_r; lia). lia.
Qed.

(** The ceiling of a float divides by [1] into the float that holds it
    exactly. *)
Lemma float_ceil_truediv x n :
  float_ceil x = Ok n ->
  exists r, int_truediv n 1 = Ok r /\ compare_int_float n r = Some Eq.
Proof.
  intros Hc. destruct (Z.eq_dec n 0) as [->|Hn].
  { exists PrimFloat.zero. split; reflexivity. }
  revert Hc. unfold float_ceil. pose proof (Prim2SF_valid x) as Hv.
  destruct (Prim2SF x) as [s|s| |s m e]; try discriminate.
  - intros [= <-]. done.
  - intros [= Hc]. change (bounded prec emax m e = true) in Hv.
    destruct (0 <=? e) eqn:He.
    + apply Z.leb_le in He.
      assert (Hp : 0 < 2 ^ e) by (apply Z.pow_pos_nonneg; lia).
      remember (Z.to_pos (Zpos m * 2 ^ e)) as N eqn:HN.
      assert (HNz : Zpos N = Zpos m * 2 ^ e) by (subst N; apply Z2Pos.id; lia).
      assert (Hn' : n = cond_Zopp s (Zpos N)) by (destruct s; simpl in *; lia).
      exists (SF2Prim (S754_finite s m e)). rewrite Hn'. split.
      * apply int_truediv_one; [done|lia|done|].
        intros ?. assert (e = 0) as -> by lia. simpl in *. lia.
      * apply compare_int_float_exact; [done|done|].
        intros ?. assert (e = 0) as -> by lia. simpl in *. lia.
    + apply Z.leb_gt in He. apply int_truediv_one_small; [done|].
      pose proof (bounded_mantissa _ _ Hv) as Hm.
      assert (Hp : 2 <= 2 ^ (- e)).
      { change 2 with (2 ^ 1) at 1. apply Z.pow_le_mono_r; lia. }
      pose proof (Z.div_mod (- cond_Zopp s (Zpos m)) (2 ^ (- e)) ltac:(lia)) as Hdm.
      pose proof (Z.mod_pos_bound (- cond_Zopp s (Zpos m)) (2 ^ (- e)) ltac:(lia)) as Hr.
      remember (- cond_Zopp s (Zpos m) / 2 ^ (- e)) as q.
      remember (- cond_Zopp s (Zpos m) mod 2 ^ (- e)) as t.
      remember (2 ^ (- e)) as b.
      assert (Hv' : - 2 ^ 53 < cond_Zopp s (Zpos m) < 2 ^ 53) by (destruct s; simpl; lia).
      remember (cond_Zopp s (Zpos m)) as v. remember (2 ^ 53) as B.
      subst n. apply Z.abs_lt. nia.
Qed.

Lemma roundup_float_0 x :
  roundup (VFloat x) (VInt 0) = (n ← float_ceil x; VFloat <$> int_truediv n 1).
Proof.
  unfold roundup. change (pow10 (VInt 0)) with (Ok (VInt 1)).
  change (Ok (VInt 1) ≫= ?k) with (k (VInt 1)). cbv beta.
  change (py_binop Mul (VFloat x) (VInt 1)) with (Ok (VFloat (PrimFloat.mul x PrimFloat.one))).
  rewrite float_mul_one.
  change (Ok (VFloat x) ≫= ?k) with (k (VFloat x)). cbv beta.
  unfold math_ceil. destruct (float_ceil x) as [n|e|]; reflexivity.
Qed.

(** What [roundup] returns on a float: the float holding the ceiling. *)
Lemma roundup_of_ceiling x n :
  float_ceil x = Ok n ->
  exists r, roundup (VFloat x) (VInt 0) = Ok (VFloat r) /\
            compare_int_float n r = Some Eq /\
            roundup (VFloat r) (VInt 0) = Ok (VFloat r).
Proof.
  intros Hc. destruct (float_ceil_truediv x n Hc) as (r & Hdiv & Hex).
  exists r. rewrite !roundup_float_0, Hc, (float_ceil_exact n r Hex).
  simpl. rewrite Hdiv. done.
Qed.

(** X7: [roundup(x)] on a float, with the default 0 digits: a NaN raises
    [ValueError] and an infinity [OverflowError]; any other [x] gives the
    float [r] that holds exactly the least integer [n] with [x <= n], and
    [r] is a fixed point of [roundup]. *)
Theorem roundup_ceiling (x : float) :
  match Prim2SF x with
  | S754_nan => roundup (VFloat x) (VInt 0) = Raise ValueError
  | S754_infinity _ => roundup (VFloat x) (VInt 0) = Raise OverflowError
  | _ =>
      exists (n : Z) (r : float),
        roundup (VFloat x) (VInt 0) = Ok (VFloat r) /\
        compare_int_float n r = Some Eq /\
        compare_int_float (n - 1) x = Some Lt /\
        (compare_int_float n x = Some Eq \/ compare_int_float n x = Some Gt) /\
        roundup (VFloat r) (VInt 0) = Ok (VFloat r)
  end.
Proof.
  assert (Hfin : forall n, float_ceil x = Ok n ->
    exists (n : Z) (r : float),
        roundup (VFloat x) (VInt 0) = Ok (VFloat r) /\
        compare_int_float n r = Some Eq /\
        compare_int_float (n - 1) x = Some Lt /\
        (compare_int_float n x = Some Eq \/ compare_int_float n x = Some Gt) /\
        roundup (VFloat r) (VInt 0) = Ok (VFloat r)).
  { intros n Hc. destruct (roundup_of_ceiling x n Hc) as (r & Hr & Hex & Hfix).
    destruct (float_ceil_least x n Hc) as [Hlt Hge]. by exists n, r. }
  destruct (Prim2SF x) as [s|s| |s m e] eqn:Hx.
  - apply (Hfin 0). unfold float_ceil. by rewrite Hx.
  - rewrite roundup_float_0. unfold float_ceil. by rewrite Hx.
  - rewrite roundup_float_0. unfold float_ceil. by rewrite Hx.
  - eapply Hfin. unfold float_ceil. rewrite Hx. reflexivity.
Qed.

(** ** The rounded fields hold whole numbers *)

Lemma py_binop_div_float a b v : py_binop Div a b = Ok v -> exists f, v = VFloat f.
Proof.
  destruct a as [|x|x|x], b as [|y|y|y]; simpl; try done.
  - destruct (int_truediv x y); simpl; [|done..]. intros [= <-]. eauto.
  - destruct (float_of_int x); simpl; [|done..].
    destruct (float_truediv _ y); simpl; [|done..]. intros [= <-]. eauto.
  - destruct (float_of_int y); simpl; [|done..].
    destruct (float_truediv x _); simpl; [|done..]. intros [= <-]. eauto.
  - destruct (float_truediv x y); simpl; [|done..]. intros [= <-]. eauto.
Qed.

Lemma rounded_formulas_quotients :
  forallb (fun entry : string * expr =>
             implb (is_roundup_call entry.2) (rounds_a_quotient entry.2)) FORMULAS = true.
Proof. vm_compute. reflexivity. Qed.

Lemma rounded_keys_quotient k :
  k ∈ rounded_keys FORMULAS ->
  exists a b, (k, Call "roundup" [BinOp Div a b; Int 0]) ∈ FORMULAS.
Proof.
  intros [a Hin]%rounded_keys_formula.
  pose proof rounded_formulas_quotients as Hall. rewrite forallb_forall in Hall.
  pose proof (Hall _ (proj1 (list_elem_of_In _ _) Hin)) as Hq.
  destruct a as [| | |op a b| |]; try discriminate Hq.
  destruct op; try discriminate Hq. by exists a, b.
Qed.

(** The value [roundup(a / b, 0)] leaves under a key: NaN, or a float that
    holds an integer and that [roundup] maps to itself. *)
Lemma stored_roundup_quotient r a b :
  exists f, stored (eval r (Call "roundup" [BinOp Div a b; Int 0])) = VFloat f /\
    (f = nan \/
     exists n, compare_int_float n f = Some Eq /\
               roundup (VFloat f) (VInt 0) = Ok (VFloat f)).
Proof.
  rewrite eval_roundup, eval_BinOp.
  destruct (eval r a) as [x| |]; simpl; [|by eexists; split; [|left]..].
  destruct (eval r b) as [y| |]; simpl; [|by eexists; split; [|left]..].
  destruct (py_binop Div x y) as [q| |] eqn:Hq; simpl; [|by eexists; split; [|left]..].
  apply py_binop_div_float in Hq as [fq ->].
  rewrite roundup_float_0.
  destruct (float_ceil fq) as [n| |] eqn:Hc; simpl; [|by eexists; split; [|left]..].
  destruct (roundup_of_ceiling fq n Hc) as (f & Hr & Hex & Hfix).
  rewrite roundup_float_0, Hc in Hr. simpl in Hr. rewrite Hr. simpl.
  exists f. split; [done|]. right. by exists n.
Qed.

(** X8: after an evaluation, every unlocked key whose formula is a call
    [roundup(a / b, 0)] (the twelve [out_per_day_*] and [in_per_day_*] keys
    and the ten [manpower_in_units_*] keys) holds a float that is NaN or
    holds an integer exactly and is a fixed point of [roundup]. *)
Theorem rounded_fields_whole
    (r : gmap string value) (locked_keys : option (list string)) (k : string) :
  k ∈ rounded_keys FORMULAS ->
  k ∉ locked_set locked_keys ->
  exists r' f,
    compute_derived r locked_keys = Ok r' /\
    r' !! k = Some (VFloat f) /\
    (f = nan \/
     exists n, compare_int_float n f = Some Eq /\
               roundup (VFloat f) (VInt 0) = Ok (VFloat f)).
Proof.
  intros (a & b & Hin)%rounded_keys_quotient Hk.
  pose proof (compute_derived_fixed r locked_keys _ _ Hin Hk) as Hfix.
  destruct (stored_roundup_quotient (run FORMULAS (locked_set locked_keys) r) a b)
    as (f & Hf & Hwhole).
  rewrite Hf in Hfix.
  exists (run FORMULAS (locked_set locked_keys) r), f.
  split; [apply compute_derived_run|]. by split.
Qed.

Lemma rounded_fields_whole_witness :
  exists r' f,
    compute_derived scenario_A None = Ok r' /\
    r' !! "out_per_day_docs"%string = Some (VFloat f) /\
    (f = nan \/
     exists n, compare_int_float n f = Some Eq /\
               roundup (VFloat f) (VInt 0) = Ok (VFloat f)).
Proof.
  apply (rounded_fields_whole scenario_A None "out_per_day_docs"%string).
  - by_evaluation.
  - by_evaluation.
Defined.

(** ** A productivity constant of zero *)

Lemma float_of_int_zero : float_of_int 0 = Ok PrimFloat.zero.
Proof. reflexivity. Qed.

(** Dividing by zero raises, whatever is divided. *)
Lemma py_binop_div_zero v a : is_zero_value a = true -> fails (py_binop Div v a).
Proof.
  intros Ha w. destruct a as [|n|z|s]; try discriminate Ha; simpl in Ha.
  - apply Z.eqb_eq in Ha as ->. by destruct v as [|x|x|x].
  - destruct v as [|x|x|x]; simpl; try done.
    + destruct (float_of_int x) as [fx| |]; simpl; [|done..].
      unfold float_truediv. by rewrite Ha.
    + unfold float_truediv. by rewrite Ha.
Qed.

Lemma at_quotient_keys_formula formulas k :
  k ∈ at_quotient_keys formulas ->
  exists a, (k, Call "roundup" [BinOp Div a (Subscript "row" "at"); Int 0]) ∈ formulas.
Proof.
  unfold at_quotient_keys. intros ([k' e] & -> & Hin)%list_elem_of_fmap.
  apply list_elem_of_In, filter_In in Hin as [Hin He]. simpl in *.
  destruct e as [| | | |fn args|]; try done.
  destruct args as [|a rest]; try done.
  destruct a as [| | |op a b| |]; try done. destruct op; try done.
  destruct b as [| |name key| | |]; try done.
  destruct rest as [|d rest]; try done.
  destruct d as [d| | | | |]; try done. destruct d; try done.
  destruct rest; try done.
  apply andb_prop in He as [[Hfn Hname]%andb_prop Hkey].
  apply String.eqb_eq in Hfn as ->. apply String.eqb_eq in Hname as ->.
  apply String.eqb_eq in Hkey as ->.
  exists a. by apply list_elem_of_In.
Qed.

Lemma manpower_pool_at_quotients k :
  k ∈ manpower_pool_keys -> k ∈ at_quotient_keys FORMULAS.
Proof.
  revert k. apply Forall_forall.
  apply (bool_decide_unpack (Forall (fun k => k ∈ at_quotient_keys FORMULAS)
                               manpower_pool_keys)).
  vm_compute. exact I.
Qed.

Lemma eval_at_quotient_fails r a v :
  r !! "at"%string = Some v -> is_zero_value v = true ->
  stored (eval r (Call "roundup" [BinOp Div a (Subscript "row" "at"); Int 0])) = NaN.
Proof.
  intros Hat Hz. apply fails_stored. rewrite eval_roundup. apply fails_bind_l.
  rewrite eval_BinOp. destruct (eval r a) as [x| |]; simpl; [|done..].
  rewrite Hat. simpl. by apply py_binop_div_zero.
Qed.

Lemma at_not_registry_key : "at"%string ∉ registry_keys FORMULAS.
Proof. apply base_field_not_registry_key. by_evaluation. Qed.

Lemma with_sorter_reads :
  "manpower_in_units_with_no_sorter_manual_sorting_units"%string
  ∈ nan_reads (CallList "sum" manpower_pool
      - row["manpower_in_units_with_no_sorter_manual_sorting_units"])%py.
Proof. by_evaluation. Qed.

Lemma without_sorter_reads :
  "manpower_in_units_with_sorter_non_cony"%string
  ∈ nan_reads (CallList "sum" manpower_pool
      - row["manpower_in_units_with_sorter_sorter_unit"]
      - row["manpower_in_units_with_sorter_non_cony"])%py.
Proof. by_evaluation. Qed.

(** X9: when the record's productivity constant [at] is zero (the int [0],
    [0.0] or [-0.0]), each division by it raises [ZeroDivisionError], which
    the engine absorbs: the ten manpower-in-units fields and both staffing
    totals are NaN, provided none of the twelve keys is locked. *)
Theorem zero_productivity_constant
    (r : gmap string value) (locked_keys : option (list string)) (v : value) :
  r !! "at"%string = Some v ->
  is_zero_value v = true ->
  (forall k, k ∈ manpower_pool_keys ++
             ["manpower_with_sorter"; "manpower_without_sorter"]%string ->
             k ∉ locked_set locked_keys) ->
  exists r', compute_derived r locked_keys = Ok r' /\
    forall k, k ∈ manpower_pool_keys ++
              ["manpower_with_sorter"; "manpower_without_sorter"]%string ->
              r' !! k = Some NaN.
Proof.
  intros Hat Hz Hunlocked.
  remember (run FORMULAS (locked_set locked_keys) r) as r' eqn:Hr'.
  exists r'. split; [rewrite Hr'; apply compute_derived_run|].
  assert (Hat' : r' !! "at"%string = Some v).
  { rewrite Hr', run_frame; [done|apply at_not_registry_key]. }
  assert (Hpool : forall k, k ∈ manpower_pool_keys -> r' !! k = Some NaN).
  { intros k Hk.
    destruct (at_quotient_keys_formula _ _ (manpower_pool_at_quotients k Hk)) as [a Hin].
    pose proof (compute_derived_fixed r locked_keys _ _ Hin) as Hfix.
    rewrite <- Hr', (eval_at_quotient_fails r' a v Hat' Hz) in Hfix.
    apply Hfix, Hunlocked, elem_of_app. by left. }
  intros k [Hk|Hk]%elem_of_app; [by apply Hpool|].
  apply elem_of_cons in Hk as [->|Hk]; [|apply list_elem_of_singleton in Hk as ->].
  - pose proof (compute_derived_fixed r locked_keys _ _ with_sorter_entry) as Hfix.
    rewrite <- Hr' in Hfix. rewrite Hfix by (apply Hunlocked; by_evaluation).
    f_equal. apply (eval_poisoned _ _ _ with_sorter_reads).
    right. apply Hpool. by_evaluation.
  - pose proof (compute_derived_fixed r locked_keys _ _ without_sorter_entry) as Hfix.
    rewrite <- Hr' in Hfix. rewrite Hfix by (apply Hunlocked; by_evaluation).
    f_equal. apply (eval_poisoned _ _ _ without_sorter_reads).
    right. apply Hpool. by_evaluation.
Qed.

Lemma zero_productivity_constant_witness :
  exists r', compute_derived (<["at"%string := VInt 0]> scenario_A) None = Ok r' /\
    forall k, k ∈ manpower_pool_keys ++
              ["manpower_with_sorter"; "manpower_without_sorter"]%string ->
              r' !! k = Some NaN.
Proof.
  apply (zero_productivity_constant (<["at"%string := VInt 0]> scenario_A) None (VInt 0)).
  - apply lookup_insert_eq.
  - reflexivity.
  - intros k _. apply not_elem_of_empty.
Defined.

(** ** Dependencies between fields *)

Lemma existsb_changed (changed l : list string) :
  existsb (fun x => bool_decide (x ∈ changed)) l = false ->
  forall x, x ∈ l -> x ∉ changed.
Proof.
  intros Hex x Hx Hc.
  assert (existsb (fun x => bool_decide (x ∈ changed)) l = true) as Htrue.
  { apply existsb_exists. exists x. split; [by apply list_elem_of_In|].
    by apply bool_decide_eq_true. }
  congruence.
Qed.

Lemma filter_other (changed : list string) key k :
  k ∉ List.filter (fun x => negb (String.eqb x key)) changed ->
  k = key \/ k ∉ changed.
Proof.
  intros Hk. destruct (decide (k = key)) as [|Hne]; [by left|right].
  intros Hc. apply Hk, list_elem_of_In, filter_In. split; [by apply list_elem_of_In|].
  apply negb_true_iff, String.eqb_neq, Hne.
Qed.

(** Two records that agree outside [changed] are evaluated to records that
    agree outside [affected locked_keys formulas changed]. *)
Lemma run_agree locked_keys formulas : forall changed r1 r2,
  (forall k, k ∉ changed -> r1 !! k = r2 !! k) ->
  forall k, k ∉ affected locked_keys formulas changed ->
    run formulas (list_to_set locked_keys) r1 !! k
    = run formulas (list_to_set locked_keys) r2 !! k.
Proof.
  induction formulas as [|[key e] rest IH]; intros changed r1 r2 Hagree k Hk;
    [by apply Hagree|].
  rewrite !run_cons. simpl in Hk. eapply IH; [|exact Hk].
  clear k Hk. intros k Hk. unfold step. simpl.
  destruct (decide (key ∈ (list_to_set locked_keys : gset string))) as [Hin|Hout].
  - apply elem_of_list_to_set in Hin. rewrite bool_decide_eq_true_2 in Hk by done.
    by apply Hagree.
  - rewrite elem_of_list_to_set in Hout. rewrite bool_decide_eq_false_2 in Hk by done.
    destruct (existsb _ (reads e)) eqn:Hex.
    + apply not_elem_of_cons in Hk as [Hne Hk].
      rewrite !lookup_insert_ne by done. by apply Hagree.
    + assert (Heval : eval r1 e = eval r2 e).
      { apply eval_ext. intros x Hx. apply Hagree. by eapply existsb_changed. }
      rewrite Heval. apply filter_other in Hk as [->|Hk].
      * by rewrite !lookup_insert_eq.
      * destruct (decide (key = k)) as [->|Hne]; [by rewrite !lookup_insert_eq|].
        rewrite !lookup_insert_ne by done. by apply Hagree.
Qed.

(** X10: the fields of the evaluated record depend on the fields of the
    given record only along the reads of unlocked formulas. Two records that
    agree outside the fields [changed] are evaluated, under the same locked
    keys, to records that agree outside [affected locked_keys FORMULAS
    changed]: a locked key is not recomputed, so nothing spreads through
    it. *)
Theorem locks_cut_dependencies
    (r1 r2 : gmap string value) (locked_keys changed : list string) :
  (forall k, k ∉ changed -> r1 !! k = r2 !! k) ->
  exists r1' r2',
    compute_derived r1 (Some locked_keys) = Ok r1' /\
    compute_derived r2 (Some locked_keys) = Ok r2' /\
    forall k, k ∉ affected locked_keys FORMULAS changed -> r1' !! k = r2' !! k.
Proof.
  intros Hagree. do 2 eexists.
  split; [apply compute_derived_run|]. split; [apply compute_derived_run|].
  intros k Hk. by apply (run_agree locked_keys FORMULAS changed).
Qed.

Lemma locks_cut_dependencies_witness :
  exists r1' r2',
    compute_derived scenario_A (Some ["per_day_ndx"%string]) = Ok r1' /\
    compute_derived (<["out_non_docs"%string := VInt 7]> scenario_A)
      (Some ["per_day_ndx"%string]) = Ok r2' /\
    forall k, k ∉ affected ["per_day_ndx"%string] FORMULAS ["out_non_docs"%string] ->
              r1' !! k = r2' !! k.
Proof.
  apply (locks_cut_dependencies scenario_A (<["out_non_docs"%string := VInt 7]> scenario_A)
           ["per_day_ndx"%string] ["out_non_docs"%string]).
  intros k Hk. apply not_elem_of_cons in Hk as [Hk _].
  by rewrite lookup_insert_ne.
Defined.

(** ** The record computed for a shift *)

Lemma shift_affected :
  affected ["per_day_ndx"; "per_day_dox"]%string FORMULAS
    ["out_non_docs"; "in_non_docs"; "sorter"]%string
  = ["in_per_day_non_docs"; "out_per_day_non_docs";
     "out_non_docs"; "in_non_docs"; "sorter"]%string.
Proof. vm_compute. reflexivity. Qed.

(** X11: in the record [main] computes for a shift, [per_day_ndx] and
    [per_day_dox] are the user's inputs and are locked, so the base record's
    [out_non_docs] and [in_non_docs] (and [sorter], and whatever it holds
    under the two locked keys) reach [out_per_day_non_docs] and
    [in_per_day_non_docs] only: every other field, the two staffing totals
    among them, is the same whatever these base fields hold. *)
Theorem shift_ignores_non_docs
    (base1 base2 : gmap string value) (input_per_day_ndx input_per_day_dox : float) :
  (forall k, k ∉ ["out_non_docs"; "in_non_docs"; "sorter";
                  "per_day_ndx"; "per_day_dox"]%string ->
             base1 !! k = base2 !! k) ->
  exists r1 r2,
    shift_row base1 input_per_day_ndx input_per_day_dox = Ok r1 /\
    shift_row base2 input_per_day_ndx input_per_day_dox = Ok r2 /\
    forall k, k ∉ ["out_non_docs"; "in_non_docs"; "sorter";
                   "out_per_day_non_docs"; "in_per_day_non_docs"]%string ->
              r1 !! k = r2 !! k.
Proof.
  intros Hagree. unfold shift_row. do 2 eexists.
  split; [apply compute_derived_run|]. split; [apply compute_derived_run|].
  intros k Hk.
  apply (run_agree ["per_day_ndx"; "per_day_dox"]%string FORMULAS
           ["out_non_docs"; "in_non_docs"; "sorter"]%string).
  - intros k' Hk'.
    destruct (decide (k' = "per_day_dox"%string)) as [->|Hdox];
      [by rewrite !lookup_insert_eq|].
    rewrite !(lookup_insert_ne _ "per_day_dox"%string) by done.
    destruct (decide (k' = "per_day_ndx"%string)) as [->|Hndx];
      [by rewrite !lookup_insert_eq|].
    rewrite !lookup_insert_ne by done. apply Hagree.
    rewrite !not_elem_of_cons in Hk'. rewrite !not_elem_of_cons.
    destruct Hk' as (? & ? & ? & ?). repeat split; done.
  - rewrite shift_affected. rewrite !not_elem_of_cons in Hk. rewrite !not_elem_of_cons.
    destruct Hk as (? & ? & ? & ? & ? & ?). repeat split; done.
Qed.

Lemma shift_ignores_non_docs_witness :
  exists r1 r2,
    shift_row scenario_A 12%float 5%float = Ok r1 /\
    shift_row (<["out_non_docs"%string := VInt 7]> scenario_A) 12%float 5%float = Ok r2 /\
    forall k, k ∉ ["out_non_docs"; "in_non_docs"; "sorter";
                   "out_per_day_non_docs"; "in_per_day_non_docs"]%string ->
              r1 !! k = r2 !! k.
Proof.
  apply (shift_ignores_non_docs scenario_A
           (<["out_non_docs"%string := VInt 7]> scenario_A) 12%float 5%float).
  intros k Hk. apply not_elem_of_cons in Hk as [Hk _].
  by rewrite lookup_insert_ne.
Defined.

(** ** The defaults of the two inputs *)

Lemma per_day_ndx_entry :
  ("per_day_ndx"%string,
   Call "max" [row["out_per_day_non_docs"]; row["in_per_day_non_docs"]]) ∈ FORMULAS.
Proof. apply (list_elem_of_lookup_2 _ 18). reflexivity. Qed.

Lemma per_day_dox_entry :
  ("per_day_dox"%string,
   Call "max" [row["out_per_day_docs"]; row["in_per_day_docs"]]) ∈ FORMULAS.
Proof. apply (list_elem_of_lookup_2 _ 19). reflexivity. Qed.

(** [max(row[a], row[b])] of two float fields is one of the two. *)
Lemma eval_max_floats r a b fa fb :
  r !! a = Some (VFloat fa) -> r !! b = Some (VFloat fb) ->
  eval r (Call "max" [Subscript "row" a; Subscript "row" b])
  = Ok (VFloat (if PrimFloat.ltb fa fb then fb else fa)).
Proof.
  intros Ha Hb. rewrite eval_Call. cbn. rewrite Ha, Hb. cbn.
  by destruct (PrimFloat.ltb fa fb).
Qed.

Lemma default_input_whole r k f :
  r !! k = Some (VFloat f) ->
  (f = nan \/ exists n, compare_int_float n f = Some Eq) ->
  exists d, default_input r k = Ok d /\
            (d = nan \/ exists n, compare_int_float n d = Some Eq).
Proof.
  intros Hk Hf. unfold default_input. rewrite Hk. simpl.
  destruct (PrimFloat.is_zero f); simpl.
  - exists PrimFloat.zero. split; [reflexivity|]. right. by exists 0.
  - by exists f.
Qed.

Lemma rounded_key_whole first_row locked_keys k :
  k ∈ rounded_keys FORMULAS ->
  k ∉ locked_set locked_keys ->
  exists f, run FORMULAS (locked_set locked_keys) first_row !! k = Some (VFloat f) /\
            (f = nan \/ exists n, compare_int_float n f = Some Eq).
Proof.
  intros (a & b & Hin)%rounded_keys_quotient Hk.
  pose proof (compute_derived_fixed first_row locked_keys _ _ Hin Hk) as Hfix.
  destruct (stored_roundup_quotient (run FORMULAS (locked_set locked_keys) first_row) a b)
    as (f & Hf & Hwhole).
  rewrite Hf in Hfix. exists f. split; [done|].
  destruct Hwhole as [->|(n & Hn & _)]; [by left|right; by exists n].
Qed.

Lemma default_input_max first_row k a b :
  (k, Call "max" [Subscript "row" a; Subscript "row" b]) ∈ FORMULAS ->
  a ∈ rounded_keys FORMULAS -> b ∈ rounded_keys FORMULAS ->
  exists d, default_input (run FORMULAS (locked_set None) first_row) k = Ok d /\
            (d = nan \/ exists n, compare_int_float n d = Some Eq).
Proof.
  intros Hin Ha Hb.
  destruct (rounded_key_whole first_row None a Ha (not_elem_of_empty _)) as (fa & Hfa & Hwa).
  destruct (rounded_key_whole first_row None b Hb (not_elem_of_empty _)) as (fb & Hfb & Hwb).
  pose proof (compute_derived_fixed first_row None _ _ Hin (not_elem_of_empty _)) as Hfix.
  remember (run FORMULAS (locked_set None) first_row) as r eqn:Hr.
  rewrite (eval_max_floats r a b fa fb Hfa Hfb) in Hfix.
  apply (default_input_whole r k _ Hfix). by destruct (PrimFloat.ltb fa fb).
Qed.

Lemma bind_Ok {A B : Type} (a : A) (k : A -> outcome B) : Ok a ≫= k = k a.
Proof. reflexivity. Qed.

(** X12: the defaults [main] offers for the two inputs, computed from the
    hub's first record, are always floats: computing them never raises,
    whatever the record holds or lacks, and each is NaN or holds an integer
    exactly. *)
Theorem default_inputs_whole (first_row : gmap string value) :
  exists default_ndx default_dox,
    default_inputs first_row = Ok (default_ndx, default_dox) /\
    (default_ndx = nan \/ exists n, compare_int_float n default_ndx = Some Eq) /\
    (default_dox = nan \/ exists n, compare_int_float n default_dox = Some Eq).
Proof.
  destruct (default_input_max first_row _ _ _ per_day_ndx_entry) as (ndx & Hndx & Hwn);
    [by_evaluation..|].
  destruct (default_input_max first_row _ _ _ per_day_dox_entry) as (dox & Hdox & Hwd);
    [by_evaluation..|].
  exists ndx, dox. split; [|by split].
  unfold default_inputs. rewrite compute_derived_run, bind_Ok, Hndx, bind_Ok, Hdox.
  reflexivity.
Qed.
